(** * Image-processing pool of httplb-autoscaling-go

    A shallow embedding of [compute/web-process-image.go]: the admission
    handler with its bounded queue, the retrying transport, and the worker
    pipeline (fetch, stage, transform, upload), followed by the properties
    established about them.

    Conventions.  A Go [string] is a [string] (a sequence of bytes), a
    [[]byte] is a [list byte], an [int] is a [Z].  A Go [map] is a [gmap];
    a lookup of an absent key gives the zero value.  A function that can
    panic returns an [exec]; a function with side effects threads the state
    it touches explicitly. *)

From stdpp Require Import gmap strings list fin_maps pretty.
From Stdlib Require Import ZArith Lia Strings.Ascii Strings.Byte.

(* ================================================================== *)
(** * Part I: the program                                               *)
(* ================================================================== *)

(** ** Outcomes *)

(** A Go call either returns or panics. *)
Inductive exec (A : Type) : Type :=
  | Done (a : A)
  | Panicked (msg : string).
Arguments Done {A} a.
Arguments Panicked {A} msg.

(** The pair [(value, error)] of a library call that follows the usual
    convention: the value is meaningful exactly when the error is nil. *)
Inductive result (A : Type) : Type :=
  | Ok (a : A)
  | Err (e : string).
Arguments Ok {A} a.
Arguments Err {A} e.

(** ** The pieces of Go's standard library that the program calls *)

Module GoLib.

(** [s[lo:]] and [s[:hi]].  A Go slice expression panics when the bound
    exceeds [len(s)]; the program only slices within bounds, and the
    model clamps. *)
Fixpoint sliceFrom (lo : nat) (s : string) : string :=
  match lo, s with
  | O, _ => s
  | S n, String _ t => sliceFrom n t
  | S _, EmptyString => EmptyString
  end.

Fixpoint sliceTo (hi : nat) (s : string) : string :=
  match hi, s with
  | O, _ => EmptyString
  | S n, String c t => String c (sliceTo n t)
  | S _, EmptyString => EmptyString
  end.

(** [strings.IndexByte(s, c) >= 0]. *)
Fixpoint containsByte (c : ascii) (s : string) : bool :=
  match s with
  | EmptyString => false
  | String b t => if Ascii.eqb b c then true else containsByte c t
  end.

(** [strings.LastIndex(s, sep)] for a one-byte [sep]: the loop
    [for i := len(s) - 1; i >= 0; i-- { if s[i] == c { return i } }
     return -1], with [n] the number of indices still to visit. *)
Fixpoint lastIndexLoop (c : ascii) (s : string) (n : nat) : Z :=
  match n with
  | O => (-1)%Z
  | S i =>
      match String.get i s with
      | Some b => if Ascii.eqb b c then Z.of_nat i else lastIndexLoop c s i
      | None => (-1)%Z
      end
  end.

Definition LastIndexByte (s : string) (c : ascii) : Z :=
  lastIndexLoop c s (String.length s).

(** [path.Split]: [i := strings.LastIndex(path, "/");
    return path[:i+1], path[i+1:]]. *)
Definition Split (p : string) : string * string :=
  let i := LastIndexByte p "/"%char in
  (sliceTo (Z.to_nat (i + 1)) p, sliceFrom (Z.to_nat (i + 1)) p).

(** [filepath.Ext] on a system whose path separator is the slash:
    [for i := len(path) - 1; i >= 0 && !os.IsPathSeparator(path[i]); i-- {
       if path[i] == '.' { return path[i:] } }
     return ""]. *)
Fixpoint extLoop (p : string) (n : nat) : string :=
  match n with
  | O => EmptyString
  | S i =>
      match String.get i p with
      | Some b =>
          if Ascii.eqb b "/"%char then EmptyString
          else if Ascii.eqb b "."%char then sliceFrom i p
          else extLoop p i
      | None => EmptyString
      end
  end.

Definition Ext (p : string) : string := extLoop p (String.length p).

(** [strings.TrimLeft], [strings.TrimRight] and [strings.Trim]. *)
Fixpoint TrimLeft (s cutset : string) : string :=
  match s with
  | EmptyString => EmptyString
  | String b t => if containsByte b cutset then TrimLeft t cutset else s
  end.

Fixpoint TrimRight (s cutset : string) : string :=
  match s with
  | EmptyString => EmptyString
  | String b t =>
      match TrimRight t cutset with
      | EmptyString =>
          if containsByte b cutset then EmptyString else String b EmptyString
      | r => String b r
      end
  end.

Definition Trim (s cutset : string) : string :=
  TrimRight (TrimLeft s cutset) cutset.

(** [strings.Join(elems, "")]. *)
Definition Join (elems : list string) : string :=
  foldr String.append EmptyString elems.

(** An [io.Reader]: the bytes not read yet, and the error, if any, that
    the stream ends with instead of [io.EOF]. *)
Record Reader : Type := mkReader {
  pending : list byte;
  fault : option string
}.

(** [bytes.NewReader(b)]. *)
Definition NewReader (b : list byte) : Reader :=
  {| pending := b; fault := None |}.

(** [ioutil.ReadAll]: the bytes read, the error, and the reader as the
    call leaves it: at its end. *)
Definition ReadAll (rd : Reader) : list byte * option string * Reader :=
  (pending rd, fault rd, {| pending := []; fault := None |}).

End GoLib.

(** ** Constants and package-level state *)

Definition NumImageProcessors : Z := 2.
Definition ImageProcessQueueSize : Z := 50.
Definition ThumbnailSuffix : string := "-t".

Definition StatusOK : Z := 200.
Definition StatusForbidden : Z := 403.
Definition StatusInternalServerError : Z := 500.
Definition StatusBadGateway : Z := 502.
Definition StatusServiceUnavailable : Z := 503.
Definition StatusGatewayTimeout : Z := 504.

(** A map of HTTP response codes which we consider to be retryable. *)
Definition retryableCodes : gmap Z bool :=
  <[StatusForbidden := true]>
  (<[StatusInternalServerError := true]>
  (<[StatusBadGateway := true]>
  (<[StatusServiceUnavailable := true]>
  (<[StatusGatewayTimeout := true]> ∅)))).

(** [retryableCodes[code]]: an absent key reads as [false]. *)
Definition retryable (code : Z) : bool :=
  default false (retryableCodes !! code).

(** ** Admission: request parsing and the bounded queue *)

(** A processImageReq represents a request to perform some transformation
    on a given image. *)
Record processImageReq : Type := mkReq {
  sourceBucket : string;
  filename : string;
  saveToBucket : string;
  saveToFilename : string
}.

(** The inbound [*http.Request] as the handler reads it: its parsed form
    values ([url.Values], a [map[string][]string]). *)
Record FormRequest : Type := mkFormRequest {
  Form : gmap string (list string)
}.

(** [r.FormValue(key)]: the first value of the key, or the empty string. *)
Definition FormValue (r : FormRequest) (key : string) : string :=
  match Form r !! key with
  | Some (v :: _) => v
  | _ => EmptyString
  end.

(** getProcessImageReq attempts to parse a processImageReq from the
    provided request. *)
Definition getProcessImageReq (r : FormRequest) : result processImageReq :=
  let objectPath := FormValue r "id" in
  if decide (objectPath = EmptyString) then
    Err "Request did not provide image id."
  else
    let '(dir, file) := GoLib.Split objectPath in
    let bucket := GoLib.Trim dir "/" in
    let saveTo := FormValue r "save-to" in
    let extension := GoLib.Ext file in
    let name :=
      GoLib.sliceTo (String.length file - String.length extension) file in
    let filenameElements := [name; ThumbnailSuffix; extension] in
    Ok {| sourceBucket := bucket;
          filename := file;
          saveToBucket := saveTo;
          saveToFilename := GoLib.Join filenameElements |}.

(** A channel of requests: the values waiting in its buffer, oldest
    first, the capacity it was made with, the number of goroutines that
    are ready to receive from it (the workers parked in
    [for r := range p.c]), and the values that were passed to such a
    receiver directly, oldest first. *)
Record Chan : Type := mkChan {
  buf : list processImageReq;
  capacity : nat;
  ready : nat;
  handed : list processImageReq
}.

(** [make(chan processImageReq, queueSize)]: nothing is buffered and no
    goroutine receives yet. *)
Definition makeChan (queueSize : nat) : Chan :=
  {| buf := []; capacity := queueSize; ready := 0; handed := [] |}.

(** The channel once [n] goroutines wait to receive from it. *)
Definition parked (n : nat) (c : Chan) : Chan :=
  {| buf := buf c; capacity := capacity c; ready := n; handed := handed c |}.

(** [select { case c <- x: ... default: ... }].  A send on a buffered
    channel proceeds when there is room in the buffer; a send on an
    unbuffered channel proceeds when a receiver is ready, and the value
    goes to that receiver.  Otherwise the default branch is taken:
    [None] is the default branch. *)
Definition trySend (c : Chan) (x : processImageReq) : option Chan :=
  if decide (length (buf c) < capacity c)
  then Some {| buf := buf c ++ [x]; capacity := capacity c;
               ready := ready c; handed := handed c |}
  else if decide (capacity c = 0 ∧ 0 < ready c)
  then Some {| buf := buf c; capacity := capacity c;
               ready := ready c - 1; handed := handed c ++ [x] |}
  else None.

(** An [http.ResponseWriter]: the status written, if any, and the body
    written so far. *)
Record ResponseWriter : Type := mkWriter {
  header : option Z;
  written : string
}.

Definition newWriter : ResponseWriter :=
  {| header := None; written := EmptyString |}.

(** [w.WriteHeader(code)]: the first call fixes the status. *)
Definition WriteHeader (code : Z) (w : ResponseWriter) : ResponseWriter :=
  match header w with
  | Some _ => w
  | None => {| header := Some code; written := written w |}
  end.

(** [fmt.Fprintf(w, ...)]: a write before any [WriteHeader] sends 200. *)
Definition Fprint (s : string) (w : ResponseWriter) : ResponseWriter :=
  let w' := WriteHeader StatusOK w in
  {| header := header w'; written := written w' +:+ s |}.

(** The status the client sees: 200 unless the handler wrote another. *)
Definition status (w : ResponseWriter) : Z := default StatusOK (header w).

(** ServeHTTP attempts to process an image manipulation request and
    returns a 200. If the request could not be queued, a 503 is returned;
    if the request was otherwise invalid, a 500. *)
Definition ServeHTTP (hostname : string) (c : Chan) (w : ResponseWriter)
    (r : FormRequest) : Chan * ResponseWriter :=
  match getProcessImageReq r with
  | Err _ => (c, WriteHeader 500 w)
  | Ok req =>
      match trySend c req with
      | Some c' => (c', Fprint ("hostname=" +:+ hostname) w)
      | None => (c, WriteHeader 503 w)
      end
  end.

(** ** The retrying transport *)

(** An outbound [*http.Request], with the fields the transport touches. *)
Record Request : Type := mkRequest {
  Method : string;
  URL : string;
  Header : gmap string (list string);
  Body : option GoLib.Reader
}.

(** An [*http.Response]: its status, its payload, and whether its body
    has been closed. *)
Record Response : Type := mkResponse {
  StatusCode : Z;
  Payload : list byte;
  BodyClosed : bool
}.

(** [resp.Body.Close()]. *)
Definition closeBody (r : Response) : Response :=
  {| StatusCode := StatusCode r; Payload := Payload r; BodyClosed := true |}.

(** The bytes a transport finds in the body of a request it is given:
    what is left to read; a nil body carries none. *)
Definition bodyBytes (r : Request) : list byte :=
  match Body r with
  | Some rd => GoLib.pending rd
  | None => []
  end.

(** [vv2 := make([]string, len(vv)); copy(vv2, vv)]. *)
Definition cloneValues (vv : list string) : list string :=
  take (length vv) vv.

Section RetryTransport.

(** [url.Parse], as far as [http.NewRequest] depends on it: whether the
    text of a URL parses. *)
Variable urlParses : string -> bool.

(** The wrapped [http.RoundTripper]: an interface value.  It has a state
    of its own (the network), and answers a request with a response or
    with an error. *)
Variable T : Type.
Variable inner : T -> Request -> result Response * T.

(** [http.NewRequest(method, urlStr, body)]: fails when the URL does not
    parse; the new request has an empty header. *)
Definition NewRequest (method urlStr : string) (body : GoLib.Reader)
    : result Request :=
  if urlParses urlStr then
    Ok {| Method := method; URL := urlStr; Header := ∅; Body := Some body |}
  else Err "parse error".

(** copyRequest constructs a new HTTP request mirroring the provided one
    with the given body. *)
Definition copyRequest (req : Request) (body : list byte) : exec Request :=
  match NewRequest (Method req) (URL req) (GoLib.NewReader body) with
  | Err e => Panicked ("Unable to copy http request: " +:+ e)
  | Ok nreq =>
      Done {| Method := Method nreq;
              URL := URL nreq;
              Header := map_fold (fun k vv h => <[k := cloneValues vv]> h)
                                 (Header nreq) (Header req);
              Body := Body nreq |}
  end.

(** What a call of [RoundTrip] leaves behind: the named results [resp]
    and [err], the state of the wrapped transport, and the attempts made,
    in order: each request handed to the wrapped transport, with its
    answer. *)
Record RoundTripState : Type := mkRT {
  resp : option Response;
  err : option string;
  net : T;
  attempts : list (Request * result Response)
}.

(** The loop [for i := 0; i < t.maxTries; i++ { ... }], with [n] the
    number of iterations left. *)
Fixpoint tries (n : nat) (i : Z) (req : Request) (body : list byte)
    (s : RoundTripState) : exec RoundTripState :=
  match n with
  | O => Done s
  | S n' =>
      match (if decide (i ≠ 0%Z) then copyRequest req body else Done req) with
      | Panicked m => Panicked m
      | Done req' =>
          let '(out, net') := inner (net s) req' in
          match out with
          | Ok r =>
              if retryable (StatusCode r) then
                tries n' (i + 1)%Z req' body
                  {| resp := Some (closeBody r); err := None;
                     net := net'; attempts := attempts s ++ [(req', out)] |}
              else
                Done {| resp := Some r; err := None;
                        net := net'; attempts := attempts s ++ [(req', out)] |}
          | Err e =>
              tries n' (i + 1)%Z req' body
                {| resp := None; err := Some e;
                   net := net'; attempts := attempts s ++ [(req', out)] |}
          end
      end
  end.

(** RoundTrip implements the http.RoundTripper interface and will attempt
    to retry an HTTP request if the response contains a retryable status
    code. *)
Definition RoundTrip (maxTries : Z) (req : Request) (st : T)
    : exec RoundTripState :=
  let start := {| resp := None; err := None; net := st; attempts := [] |} in
  match Body req with
  | Some rd =>
      let '(body, e, rd') := GoLib.ReadAll rd in
      match e with
      | Some e =>
          Done {| resp := None; err := Some e; net := st; attempts := [] |}
      | None =>
          tries (Z.to_nat maxTries) 0
            {| Method := Method req; URL := URL req; Header := Header req;
               Body := Some rd' |}
            body start
      end
  | None => tries (Z.to_nat maxTries) 0 req [] start
  end.

End RetryTransport.

Arguments resp {T} _.
Arguments err {T} _.
Arguments net {T} _.
Arguments attempts {T} _.
Arguments mkRT {T} _ _ _ _.

(** A wrapped transport that plays a script: each call takes the next
    answer, and a call past the end of the script is a connection error. *)
Definition scripted (script : list (result Response)) (_ : Request)
    : result Response * list (result Response) :=
  match script with
  | [] => (Err "connection refused", [])
  | a :: rest => (a, rest)
  end.

(** ** The worker pipeline *)

(** The argument lists of the three canned imagemagick commands. *)
Definition thumbnailCommand (inp out : string) : list string :=
  ["convert"; inp; "-thumbnail"; "100x100"; out].

Definition intenseCommand (inp out : string) : list string :=
  ["convert"; inp; "-auto-level"; "-auto-orient"; "-antialias";
   "-auto-gamma"; "-contrast"; "-despeckle"; "-thumbnail"; "100x100"; out].

Definition moderateCommand (inp out : string) : list string :=
  ["convert"; inp; "-auto-orient"; "-antialias"; "-contrast"; "-thumbnail";
   "100x100"; out].

(** A [*storage.Object], with the fields the worker reads. *)
Record Object : Type := mkObject {
  Name : string;
  SelfLink : string;
  MediaLink : string
}.

(** What a worker does to the outside, in order. *)
Inductive Event : Type :=
  | EvObjectsGet (bucket name : string)
  | EvDownload (url : string)
  | EvWriteFile (name : string)
  | EvRun (argv : list string)
  | EvOpen (name : string)
  | EvClose (name : string)
  | EvObjectsInsert (bucket name : string) (media : list byte)
  | EvRemove (name : string)
  | EvLog (line : string).

(** The collaborators of a worker: the storage service, its HTTP client,
    the local disk and the external command.  [E] is their own state; each
    call may change it.  The command may also change the files.  A write
    to the disk that fails says with [diskShort] what it left behind:
    [None] when the file could not be opened, and [Some n] when the file
    was created or truncated and [n] bytes went into it before the
    error. *)
Record Collaborators (E : Type) : Type := mkCollaborators {
  objectsGet : E -> string -> string -> result Object * E;
  clientGet : E -> string -> result GoLib.Reader * E;
  diskWrite : E -> string -> list byte -> option string * E;
  diskShort : E -> string -> list byte -> option nat;
  combinedOutput :
    E -> gmap string (list byte) -> list string ->
    list byte * option string * gmap string (list byte) * E;
  objectsInsert : E -> string -> string -> list byte -> result Object * E
}.
Arguments objectsGet {E} _.
Arguments clientGet {E} _.
Arguments diskWrite {E} _.
Arguments diskShort {E} _.
Arguments combinedOutput {E} _.
Arguments objectsInsert {E} _.

(** The world a worker runs in: the state of its collaborators, the files
    of the working directory, and the trace of what has been done. *)
Record World (E : Type) : Type := mkWorld {
  ext : E;
  files : gmap string (list byte);
  trace : list Event
}.
Arguments ext {E} _.
Arguments files {E} _.
Arguments trace {E} _.
Arguments mkWorld {E} _ _ _.

(** A computation of the worker: it changes the world, and returns or
    panics. *)
Definition M (E A : Type) : Type := World E -> exec A * World E.

Definition ret {E A} (a : A) : M E A := fun w => (Done a, w).

Definition bind {E A B} (m : M E A) (k : A -> M E B) : M E B :=
  fun w =>
    match m w with
    | (Done a, w') => k a w'
    | (Panicked msg, w') => (Panicked msg, w')
    end.

Definition panic {E A} (msg : string) : M E A := fun w => (Panicked msg, w).

(** [defer d] before [m]: [d] runs when [m] is left, by a return or by a
    panic alike. *)
Definition deferring {E A} (d : World E -> World E) (m : M E A) : M E A :=
  fun w => let '(r, w') := m w in (r, d w').

Notation "'let!' x ':=' m 'in' k" := (bind m (fun x => k))
  (at level 10, x name, m at level 100, k at level 200).

Definition emit {E} (ev : Event) (w : World E) : World E :=
  {| ext := ext w; files := files w; trace := trace w ++ [ev] |}.

(** [p.l.Printf] and [p.l.Panicf]. *)
Definition logf {E} (line : string) : M E unit :=
  fun w => (Done tt, emit (EvLog line) w).

Definition logPanicf {E A} (line : string) : M E A :=
  fun w => (Panicked line, emit (EvLog line) w).

(** [os.Remove(name)], its error dropped. *)
Definition osRemove {E} (name : string) (w : World E) : World E :=
  emit (EvRemove name)
    {| ext := ext w; files := delete name (files w); trace := trace w |}.

(** [file.Close()]. *)
Definition fileClose {E} (name : string) (w : World E) : World E :=
  emit (EvClose name) w.

(** [os.Open(name)] followed by reading the file: its bytes, or the error
    of a file that is not there. *)
Definition osOpen {E} (name : string) : M E (result (list byte)) :=
  fun w =>
    (Done match files w !! name with
          | Some b => Ok b
          | None => Err ("open " +:+ name +:+ ": no such file or directory")
          end,
     emit (EvOpen name) w).

Section Worker.

Context {E : Type} (C : Collaborators E).

Definition callObjectsGet (bucket name : string) : M E (result Object) :=
  fun w =>
    let '(r, e') := objectsGet C (ext w) bucket name in
    (Done r, emit (EvObjectsGet bucket name)
               {| ext := e'; files := files w; trace := trace w |}).

Definition callClientGet (url : string) : M E (result GoLib.Reader) :=
  fun w =>
    let '(r, e') := clientGet C (ext w) url in
    (Done r, emit (EvDownload url)
               {| ext := e'; files := files w; trace := trace w |}).

(** [ioutil.WriteFile(name, b, 0600)]: the file is opened with
    [O_WRONLY|O_CREATE|O_TRUNC], written and closed.  When the open fails
    the files are as before; a failure after the open leaves the file
    with the bytes that were written, its earlier content gone. *)
Definition ioutilWriteFile (name : string) (b : list byte)
    : M E (option string) :=
  fun w =>
    let '(r, e') := diskWrite C (ext w) name b in
    (Done r,
     emit (EvWriteFile name)
       {| ext := e';
          files := match r with
                   | None => <[name := b]> (files w)
                   | Some _ =>
                       match diskShort C (ext w) name b with
                       | None => files w
                       | Some n => <[name := take n b]> (files w)
                       end
                   end;
          trace := trace w |}).

(** [cmd.CombinedOutput()]. *)
Definition CombinedOutput (argv : list string)
    : M E (list byte * option string) :=
  fun w =>
    let '(out, r, fs', e') := combinedOutput C (ext w) (files w) argv in
    (Done (out, r),
     emit (EvRun argv) {| ext := e'; files := fs'; trace := trace w |}).

(** [p.s.Objects.Insert(bucket, object).Media(file).Do()]. *)
Definition callObjectsInsert (bucket name : string) (media : list byte)
    : M E (result Object) :=
  fun w =>
    let '(r, e') := objectsInsert C (ext w) bucket name media in
    (Done r, emit (EvObjectsInsert bucket name media)
               {| ext := e'; files := files w; trace := trace w |}).

(** getImageBytes attempts to download and return the bytes of the
    indicated GCS object. It may panic if a network request cannot be
    completed within 4 attempts. *)
Definition getImageBytes (bucket name : string) : M E (list byte) :=
  let! obj := callObjectsGet bucket name in
  match obj with
  | Err e =>
      logPanicf ("Unable to get object " +:+ name +:+ " from GCS: " +:+ e)
  | Ok obj =>
      let! r := callClientGet (MediaLink obj) in
      match r with
      | Err e =>
          logPanicf ("Unable to download " +:+ MediaLink obj +:+ ": " +:+ e)
      | Ok body =>
          let '(b, e, _) := GoLib.ReadAll body in
          match e with
          | Some e =>
              logPanicf
                ("Unable to read body of " +:+ MediaLink obj +:+ ": " +:+ e)
          | None => ret b
          end
      end
  end.

(** processImage applies a transformation to the indicated image and
    writes its output to a given GCS bucket.  The value returned is the
    named result [err]. *)
Definition processImage (r : processImageReq) : M E (option string) :=
  let! b := getImageBytes (sourceBucket r) (filename r) in
  let! u :=
    logf ("Read " +:+ pretty (length b) +:+ " bytes from response body...") in
  let! werr := ioutilWriteFile (filename r) b in
  match werr with
  | Some e =>
      let! u :=
        logf ("Error writing file " +:+ filename r +:+ " to disk") in
      ret (Some e)
  | None =>
      deferring (osRemove (filename r))
        (let! oc :=
           CombinedOutput (moderateCommand (filename r) (saveToFilename r)) in
         match snd oc with
         | Some e =>
             let! u :=
               logf ("Could not transform file. StdOut: "
                     +:+ String.string_of_list_byte (fst oc)) in
             ret (Some e)
         | None =>
             let! u :=
               logf ("Converted " +:+ filename r +:+ " to "
                     +:+ saveToFilename r) in
             deferring (osRemove (saveToFilename r))
               (let! u :=
                  logf "Now starting upload to save-to Cloud Storage Bucket..." in
                let! file := osOpen (saveToFilename r) in
                match file with
                | Err e =>
                    let! u :=
                      logf ("Error opening " +:+ saveToFilename r) in
                    ret (Some e)
                | Ok media =>
                    deferring (fileClose (saveToFilename r))
                      (let! res :=
                         callObjectsInsert (saveToBucket r)
                           (saveToFilename r) media in
                       match res with
                       | Err e =>
                           let! u :=
                             logf ("Unable to upload " +:+ saveToFilename r
                                   +:+ " to GCS") in
                           (* [res] is nil here, and [res.Name] is read *)
                           panic "runtime error: invalid memory address or nil pointer dereference"
                       | Ok res =>
                           let! u :=
                             logf ("Created object " +:+ Name res
                                   +:+ " at location " +:+ SelfLink res) in
                           ret None
                       end)
                end)
         end)
  end.

(** process reads from the imageProcessor's input channel and attempts
    to process an image: [for r := range p.c { ... }], run on the
    requests that the channel delivers, in order.  The elapsed time is
    not modelled; its log line keeps the format verb. *)
Fixpoint process (queue : list processImageReq) : M E unit :=
  match queue with
  | [] => ret tt
  | r :: rest =>
      let! e := processImage r in
      let! u :=
        match e with
        | Some e =>
            logf ("Could not process image " +:+ saveToFilename r
                  +:+ ": " +:+ e)
        | None => ret tt
        end in
      let! u := logf "Processing took %fs" in
      process rest
  end.

End Worker.

(** ** The batch copiers: [scripts/duplicate_files.go] and
    [scripts/generate_files.go] *)

(** [strconv.Itoa]: the decimal text of an integer, with a minus sign
    before a negative one. *)
Definition Itoa (i : Z) : string := pretty i.

(** [strings.Join(elems, sep)]. *)
Definition JoinWith (sep : string) (elems : list string) : string :=
  String.concat sep elems.

(** A call of [s.Objects.Copy(sourceBucket, sourceName, destBucket,
    destName, nil).Do()], with the error it returned. *)
Record CopyCall : Type := mkCopyCall {
  copySourceBucket : string;
  copySourceName : string;
  copyDestBucket : string;
  copyDestName : string;
  copyError : option string
}.

(** The storage service behind [Objects.Copy]: [St] is its state, and a
    copy returns its error, if any. *)
Definition CopyService (St : Type) : Type :=
  St → string → string → string → string → option string * St.

(** A copier at work: the state of the service and the copy calls made
    so far, in order. *)
Record Copier (St : Type) : Type := mkCopier {
  service : St;
  copyCalls : list CopyCall
}.
Arguments service {St} _.
Arguments copyCalls {St} _.
Arguments mkCopier {St} _ _.

Section CopyLoops.

Context {St : Type} (Copy : CopyService St).

(** [_, err = s.Objects.Copy(...).Do()]. *)
Definition callCopy (sb sn db dn : string) (c : Copier St)
    : option string * Copier St :=
  let '(e, s') := Copy (service c) sb sn db dn in
  (e, {| service := s';
         copyCalls := copyCalls c
                      ++ [{| copySourceBucket := sb; copySourceName := sn;
                             copyDestBucket := db; copyDestName := dn;
                             copyError := e |}] |}).

(** The loop that both copiers share,
    [for ...; n more iterations { if _, err = Copy(...).Do();
       err == nil { break } }],
    with [err] the variable that the calls assign. *)
Fixpoint copyAttempts (n : nat) (sb sn db dn : string) (err : option string)
    (c : Copier St) : option string * Copier St :=
  match n with
  | O => (err, c)
  | S n' =>
      let '(e, c') := callCopy sb sn db dn c in
      match e with
      | None => (None, c')
      | Some _ => copyAttempts n' sb sn db dn e c'
      end
  end.

End CopyLoops.

Module DuplicateFiles.

Definition numCopiers : Z := 5.

(** A [*storage.Object], with the fields the copier reads. *)
Record Object : Type := mkObject {
  Bucket : string;
  Name : string
}.

(** A [*storage.Objects]: one page of a listing. *)
Record Objects : Type := mkObjects {
  Items : list Object;
  NextPageToken : string
}.

(** A call of [s.Objects.List(b).Do()] (the token is empty) or of
    [s.Objects.List(b).PageToken(token).Do()], with its answer. *)
Record ListCall : Type := mkListCall {
  listBucket : string;
  listToken : string;
  listAnswer : result Objects
}.

(** The lister at work: the state of the service, the list calls made,
    and what was printed. *)
Record Lister (St : Type) : Type := mkLister {
  listing : St;
  listCalls : list ListCall;
  printed : list string
}.
Arguments listing {St} _.
Arguments listCalls {St} _.
Arguments printed {St} _.
Arguments mkLister {St} _ _ _.

(** How [getObjects] ends: it returns, or [log.Fatalf] ends the program,
    or the pages did not end within the iterations allowed. *)
Inductive ending (A : Type) : Type :=
  | Returned (a : A)
  | Exited (msg : string)
  | Unfinished.
Arguments Returned {A} a.
Arguments Exited {A} msg.
Arguments Unfinished {A}.

Section Listing.

Context {St : Type} (ListObjects : St → string → string → result Objects * St).

Definition callList (b token : string) (l : Lister St)
    : result Objects * Lister St :=
  let '(a, s') := ListObjects (listing l) b token in
  (a, {| listing := s';
         listCalls := listCalls l
                      ++ [{| listBucket := b; listToken := token;
                             listAnswer := a |}];
         printed := printed l |}).

(** The end of [getObjects]: [fmt.Printf("Got %v objects\n", len(objs))]
    and the return. *)
Definition gotObjects (objs : list Object) (l : Lister St)
    : ending (list Object) * Lister St :=
  (Returned objs,
   {| listing := listing l; listCalls := listCalls l;
      printed := printed l
                 ++ ["Got " +:+ pretty (length objs) +:+ " objects"] |}).

(** The loop [for resp.NextPageToken != "" { ... }], with [token] the
    page token of the last answer and [fuel] the iterations allowed. *)
Fixpoint nextPages (fuel : nat) (b token : string) (objs : list Object)
    (l : Lister St) : ending (list Object) * Lister St :=
  if decide (token = EmptyString) then gotObjects objs l
  else
    match fuel with
    | O => (Unfinished, l)
    | S fuel' =>
        let '(a, l') := callList b token l in
        match a with
        | Err e =>
            gotObjects objs
              {| listing := listing l'; listCalls := listCalls l';
                 printed := printed l'
                   ++ ["Unable to get subsequent listing for bucket: " +:+ e] |}
        | Ok resp =>
            nextPages fuel' b (NextPageToken resp) (objs ++ Items resp) l'
        end
    end.

(** getObjects returns a slice of all objects in the given bucket. *)
Definition getObjects (fuel : nat) (b : string) (l : Lister St)
    : ending (list Object) * Lister St :=
  let '(a, l') := callList b EmptyString l in
  match a with
  | Err e =>
      (Exited ("Unable to get object listing for bucket " +:+ b +:+ ": " +:+ e),
       l')
  | Ok resp => nextPages fuel b (NextPageToken resp) (Items resp) l'
  end.

End Listing.

Section Copying.

Context {St : Type} (Copy : CopyService St).

(** copyObjects copies the source file to the destination in Google Cloud
    Storage. It returns an error if one occurred.  The loop is
    [for i := 0; i <= 3; i++]. *)
Definition copyObject (sourceBucket sourceName destBucket destName : string)
    (c : Copier St) : option string * Copier St :=
  copyAttempts Copy 4 sourceBucket sourceName destBucket destName None c.

(** The loop [for o := range in { ... }] of [duplicateFiles]: [objs] is
    what the channel [in] delivers, and [out] what has been sent on the
    channel [out]. *)
Fixpoint duplicateEach (prefix : string) (objs : list Object)
    (out : list string) (c : Copier St) : list string * Copier St :=
  match objs with
  | [] => (out, c)
  | o :: rest =>
      let '(err, c') :=
        copyObject (Bucket o) (Name o) (Bucket o)
          (JoinWith "-" [prefix; Name o]) c in
      duplicateEach prefix rest
        (match err with
         | Some _ => out ++ [Name o]
         | None => out
         end) c'
  end.

(** duplicateFiles makes copies of files from the given channel. The
    resultant copies are prefixed to avoid collisions. Failures are written
    to out.  The third component is the line printed at the end. *)
Definition duplicateFiles (prefix : string) (objs : list Object)
    (out : list string) (c : Copier St) : list string * Copier St * string :=
  (duplicateEach prefix objs out c, "copier " +:+ prefix +:+ " exiting.").

End Copying.

End DuplicateFiles.

Module GenerateFiles.

Definition numCopiers : Z := 10.
Definition numFiles : Z := 10000.

Record GCSCopyReq : Type := mkGCSCopyReq {
  SourceBucket : string;
  SourceFile : string;
  DestBucket : string;
  DestFile : string
}.

Definition buildName (prefix : Z) (name : string) : string :=
  JoinWith "-" [Itoa prefix; name].

Section Copying.

Context {St : Type} (Copy : CopyService St).

(** copyObjects takes copy requests from the input channel and attempts
    to use the GCS Storage API to perform the action. It incorporates naive
    retry logic and will output failures to the outut channel.  [reqs] is
    what the channel [in] delivers, [err] the variable declared before the
    loop, [out] what has been sent on the channel [out], and [fin] the
    number of values sent on the channel [fin]. *)
Fixpoint copyObjects (reqs : list GCSCopyReq) (err : option string)
    (out : list string) (fin : nat) (c : Copier St)
    : option string * list string * nat * Copier St :=
  match reqs with
  | [] => (err, out, fin, c)
  | o :: rest =>
      let '(err', c') :=
        copyAttempts Copy 3 (SourceBucket o) (SourceFile o) (DestBucket o)
          (DestFile o) err c in
      match err' with
      | Some _ => copyObjects rest err' (out ++ [DestFile o]) fin c'
      | None => copyObjects rest err' out (S fin) c'
      end
  end.

End Copying.

(** The requests that [main] sends on the channel [c]:
    [for i := 1; i < numFiles; i++ { c <- &GCSCopyReq{...} }], with
    [baseFileName := buildName(0, fileName)]. *)
Definition copyRequests (numFiles : Z) (bucket fileName : string)
    : list GCSCopyReq :=
  (fun i : nat =>
     {| SourceBucket := bucket;
        SourceFile := buildName 0 fileName;
        DestBucket := bucket;
        DestFile := buildName (Z.of_nat i) fileName |})
  <$> seq 1 (Z.to_nat numFiles - 1).

End GenerateFiles.

(** ** The notification relay (the App Engine application) *)

Module Relay.

(** Bucket for storing generated thumbnails. *)
Definition saveToBucketName : string := "fifth-curve-684-output-bucket".
(** IP pointing to worker processing pool. *)
Definition processingPoolIp : string := "107.178.243.219".

Record notification : Type := mkNotification {
  ID : string;
  ObjectName : string;
  ObjectSelfLink : string;
  BucketName : string
}.

(** The answer to a POST, as [transformImage] reads it. *)
Record PostResponse : Type := mkPostResponse {
  Status : string;
  StatusCode : Z;
  Body : GoLib.Reader
}.

(** A call of [client.PostForm(url, values)]. *)
Record PostCall : Type := mkPostCall {
  postUrl : string;
  postValues : gmap string (list string)
}.

(** The relay at work: the state of the network behind its client, the
    posts made, and the lines logged, each with its level. *)
Record AppContext (B : Type) : Type := mkContext {
  backend : B;
  posts : list PostCall;
  logged : list (string * string)
}.
Arguments backend {B} _.
Arguments posts {B} _.
Arguments logged {B} _.
Arguments mkContext {B} _ _ _.

Definition Infof {B} (line : string) (c : AppContext B) : AppContext B :=
  {| backend := backend c; posts := posts c;
     logged := logged c ++ [("INFO", line)] |}.

Definition Errorf {B} (line : string) (c : AppContext B) : AppContext B :=
  {| backend := backend c; posts := posts c;
     logged := logged c ++ [("ERROR", line)] |}.

(** The form that [transformImage] posts:
    [url.Values{"id": {id}, "save-to": {saveToBucketName}}] with
    [id := strings.Join([]string{n.BucketName, n.ObjectName}, "/")]. *)
Definition transformValues (n : notification) : gmap string (list string) :=
  <["id" := [JoinWith "/" [BucketName n; ObjectName n]]]>
  (<["save-to" := [saveToBucketName]]> ∅).

(** [strings.Join([]string{"http://", processingPoolIp, "/process"}, "")]. *)
Definition transformUrl : string :=
  JoinWith "" ["http://"; processingPoolIp; "/process"].

Section Transform.

Context {B : Type}
        (PostForm : B → string → gmap string (list string)
                    → result PostResponse * B).

(** transformImage takes a notification to manipulate an image and asks
    our backend service to compute some transformation on it via HTTP. If
    the service is unavailable, it returns an error. *)
Definition transformImage (n : notification) (c : AppContext B)
    : option string * AppContext B :=
  let c1 := Infof ("Sending request to transform: " +:+ ObjectName n) c in
  let '(r, b') := PostForm (backend c1) transformUrl (transformValues n) in
  let c2 :=
    {| backend := b';
       posts := posts c1
                ++ [{| postUrl := transformUrl;
                       postValues := transformValues n |}];
       logged := logged c1 |} in
  match r with
  | Err e => (Some e, Errorf ("Error sending POST to URL: " +:+ e) c2)
  | Ok resp =>
      let c3 := Infof ("HTTP POST returned status: " +:+ Status resp) c2 in
      if decide (StatusCode resp ≠ StatusOK) then
        (Some "Non-200 response from backend", c3)
      else
        let '(respBody, e, _) := GoLib.ReadAll (Body resp) in
        match e with
        | Some e =>
            (Some e, Errorf ("Error attempting to read resp body: " +:+ e) c3)
        | None =>
            (None,
             Infof ("respBody=" +:+ String.string_of_list_byte respBody) c3)
        end
  end.

End Transform.

End Relay.

(** ** The notification relay, with a task queue *)

Module RelayTasks.

Definition saveToBucketName : string := "fifth-curve-684-output-bucket".
Definition processingPoolIp : string := "107.178.243.219".

(** [values.Set(key, value)] on a [url.Values]. *)
Definition valuesSet (key value : string) (v : gmap string (list string))
    : gmap string (list string) :=
  <[key := [value]]> v.

Section Worker.

Context {B : Type}
        (PostForm : B → string → gmap string (list string)
                    → result Relay.PostResponse * B).

(** The handler of the [/worker] route: it builds the processing request
    of a task and posts it to the pool. *)
Definition worker (w : ResponseWriter) (r : FormRequest)
    (c : Relay.AppContext B) : ResponseWriter * Relay.AppContext B :=
  let bucketName := FormValue r "bucketName" in
  let objectName := FormValue r "objectName" in
  let pathParts := [bucketName; objectName] in
  let id := JoinWith "/" pathParts in
  let values :=
    valuesSet "save-to" saveToBucketName (valuesSet "id" id ∅) in
  let postUrlParts := [] ++ ["http://"] ++ [processingPoolIp] ++ ["/process"] in
  let postUrl := JoinWith "" postUrlParts in
  let c1 := Relay.Infof ("Sending request to transform: " +:+ objectName) c in
  let '(resp, b') := PostForm (Relay.backend c1) postUrl values in
  let c2 :=
    {| Relay.backend := b';
       Relay.posts := Relay.posts c1
                      ++ [{| Relay.postUrl := postUrl;
                             Relay.postValues := values |}];
       Relay.logged := Relay.logged c1 |} in
  match resp with
  | Err e =>
      (WriteHeader StatusServiceUnavailable w,
       Relay.Errorf ("Error sending POST to URL: " +:+ e) c2)
  | Ok resp =>
      let c3 :=
        Relay.Infof ("HTTP POST returned status: " +:+ Relay.Status resp) c2 in
      let '(respBody, e, _) := GoLib.ReadAll (Relay.Body resp) in
      let c4 :=
        match e with
        | None =>
            Relay.Infof ("respBody=" +:+ String.string_of_list_byte respBody) c3
        | Some e =>
            Relay.Errorf ("Error attempting to read resp body: " +:+ e) c3
        end in
      (WriteHeader (Relay.StatusCode resp) w, c4)
  end.

End Worker.

End RelayTasks.

(* ================================================================== *)
(** * Part II: vocabulary of the properties                             *)
(* ================================================================== *)

(** An inbound request with the given [id] and [save-to] form fields. *)
Definition formRequest (id saveTo : string) : FormRequest :=
  {| Form := <["id" := [id]]> (<["save-to" := [saveTo]]> ∅) |}.

(** An inbound request that has no [id] field at all. *)
Definition formRequestWithoutId (saveTo : string) : FormRequest :=
  {| Form := <["save-to" := [saveTo]]> ∅ |}.

(** The request that admission builds for the identifier
    [bucket/eiffel.jpg] and the destination bucket [thumbs]. *)
Definition eiffelAdmitted : processImageReq :=
  {| sourceBucket := "bucket"; filename := "eiffel.jpg";
     saveToBucket := "thumbs"; saveToFilename := "eiffel-t.jpg" |}.

(** The queue of the program, as [main] has it made:
    [make(chan processImageReq, ImageProcessQueueSize)]; and the same
    queue once the [NumImageProcessors] workers wait to receive. *)
Definition mainQueue : Chan := makeChan (Z.to_nat ImageProcessQueueSize).

Definition startQueue : Chan :=
  parked (Z.to_nat NumImageProcessors) mainQueue.

(** A queue of capacity one that holds a request: it has no free slot. *)
Definition fullChan : Chan :=
  {| buf := [eiffelAdmitted]; capacity := 1; ready := 0; handed := [] |}.

(** An identifier splits into a bucket and an object name when it has the
    form [bucket/object-name], with neither part empty. *)
Definition splitsIntoBucketAndObject (id : string) : Prop :=
  ∃ bucket name : string,
    id = bucket +:+ "/" +:+ name ∧ bucket ≠ EmptyString ∧ name ≠ EmptyString.

(** The request that [copyRequest] builds when the URL parses. *)
Definition mirror (req : Request) (body : list byte) : Request :=
  {| Method := Method req;
     URL := URL req;
     Header := map_fold (fun k vv h => <[k := cloneValues vv]> h) ∅ (Header req);
     Body := Some (GoLib.NewReader body) |}.

(** The request as [RoundTrip] holds it once the body has been read: the
    same request, its body reader at its end. *)
Definition drained (req : Request) : Request :=
  match Body req with
  | Some rd =>
      {| Method := Method req; URL := URL req; Header := Header req;
         Body := Some (GoLib.ReadAll rd).2 |}
  | None => req
  end.

(** The body of a request can be read to its end without an error. *)
Definition readable (req : Request) : Prop :=
  ∀ rd, Body req = Some rd → GoLib.fault rd = None.

(** An answer after which the loop goes on: a response with a retryable
    status, or an error of the wrapped transport. *)
Definition continues (a : result Response) : bool :=
  match a with
  | Ok r => retryable (StatusCode r)
  | Err _ => true
  end.

(** An answer that is a response with a retryable status. *)
Definition retryableAnswer (a : result Response) : bool :=
  match a with
  | Ok r => retryable (StatusCode r)
  | Err _ => false
  end.

Section Schedule.

Variable T : Type.
Variable inner : T -> Request -> result Response * T.

(** What the wrapped transport would be asked and would answer in [n]
    attempts in a row, none of them ending the loop, from iteration [i]
    on: the schedule against which a run is read. *)
Fixpoint play (n : nat) (i : Z) (req : Request) (body : list byte) (st : T)
    : list (Request * result Response) :=
  match n with
  | O => []
  | S n' =>
      let req' := if decide (i ≠ 0%Z) then mirror req body else req in
      let '(a, st') := inner st req' in
      (req', a) :: play n' (i + 1)%Z req' body st'
  end.

(** The schedule of a call of [RoundTrip]. *)
Definition schedule (maxTries : Z) (req : Request) (st : T)
    : list (Request * result Response) :=
  play (Z.to_nat maxTries) 0 (drained req) (bodyBytes req) st.

End Schedule.

(** The attempts of a schedule that are made: up to the first answer
    that ends the loop, that one included. *)
Fixpoint cutoff (l : list (Request * result Response))
    : list (Request * result Response) :=
  match l with
  | [] => []
  | (rq, a) :: l' => if continues a then (rq, a) :: cutoff l' else [(rq, a)]
  end.

(** The results [resp] and [err] after the attempts [l], from the
    values [r0] and [e0] they had before. *)
Definition outcome (r0 : option Response) (e0 : option string)
    (l : list (Request * result Response)) : option Response * option string :=
  match last l with
  | None => (r0, e0)
  | Some (_, Ok r) =>
      (Some (if retryable (StatusCode r) then closeBody r else r), None)
  | Some (_, Err e) => (None, Some e)
  end.

(** Fixtures: two responses, and a request with a two-byte body. *)
Definition unavailable : Response :=
  {| StatusCode := 503; Payload := []; BodyClosed := false |}.

Definition created : Response :=
  {| StatusCode := 200; Payload := []; BodyClosed := false |}.

Definition upload : Request :=
  {| Method := "POST";
     URL := "https://storage.example/upload";
     Header := <["Content-Type" := ["image/jpeg"]]> ∅;
     Body := Some (GoLib.NewReader (String.list_byte_of_string "hi")) |}.

Definition anyUrl (_ : string) : bool := true.

(** How often the external command was run, and how often an upload
    was attempted, in a trace. *)
Definition isRun (ev : Event) : bool :=
  match ev with EvRun _ => true | _ => false end.

Definition isInsert (ev : Event) : bool :=
  match ev with EvObjectsInsert _ _ _ => true | _ => false end.

Fixpoint countIf (p : Event → bool) (tr : list Event) : nat :=
  match tr with
  | [] => 0
  | ev :: tr' => (if p ev then 1 else 0) + countIf p tr'
  end.

Definition toolRuns (tr : list Event) : nat := countIf isRun tr.
Definition uploads (tr : list Event) : nat := countIf isInsert tr.

(** The fetch stage fails: the metadata lookup fails, or the download
    fails, or the body cannot be read to its end. *)
Definition fetchFails {E} (C : Collaborators E) (e : E) (bucket name : string)
    : bool :=
  match objectsGet C e bucket name with
  | (Err _, _) => true
  | (Ok obj, e1) =>
      match clientGet C e1 (MediaLink obj) with
      | (Err _, _) => true
      | (Ok body, _) =>
          match GoLib.fault body with Some _ => true | None => false end
      end
  end.

(** After a fetch that gave the bytes [b]: the error of the first of the
    three steps that fails, among writing the scratch file, running the
    command, and opening its output; [None] when none of them fails. *)
Definition laterFailure {E} (C : Collaborators E) (r : processImageReq)
    (b : list byte) (e : E) (fs : gmap string (list byte)) : option string :=
  match diskWrite C e (filename r) b with
  | (Some err, _) => Some err
  | (None, e1) =>
      match combinedOutput C e1 (<[filename r := b]> fs)
              (moderateCommand (filename r) (saveToFilename r)) with
      | (_, Some err, _, _) => Some err
      | (_, None, fs', _) =>
          match fs' !! saveToFilename r with
          | Some _ => None
          | None =>
              Some ("open " +:+ saveToFilename r
                    +:+ ": no such file or directory")
          end
      end
  end.

(** The worker comes back to its loop after the request [r]: it goes on
    with the requests that are still queued. *)
Definition staysAvailable {E} (C : Collaborators E) (r : processImageReq)
    (rest : list processImageReq) (w : World E) : Prop :=
  ∃ w' : World E, process C (r :: rest) w = process C rest w'.

(** Fixtures: collaborators without a state of their own.  The bucket
    [missing] has no objects, the object [unreachable.jpg] cannot be
    downloaded, a file without a name cannot be opened, the disk is full
    after two bytes of [huge.jpg], the command fails on [broken.jpg] and
    otherwise writes its output file, and the bucket [readonly] refuses
    uploads. *)
Definition lab : Collaborators unit :=
  {| objectsGet := fun _ bucket name =>
       if decide (bucket = "missing")
       then (Err "googleapi: Error 404: Not Found", tt)
       else (Ok {| Name := name; SelfLink := "self/" +:+ name;
                   MediaLink := "media/" +:+ name |}, tt);
     clientGet := fun _ url =>
       if decide (url = "media/unreachable.jpg")
       then (Err "dial tcp: connection refused", tt)
       else (Ok (GoLib.NewReader (String.list_byte_of_string "JPEG")), tt);
     diskWrite := fun _ name _ =>
       (if decide (name = EmptyString)
        then Some "open : no such file or directory"
        else if decide (name = "huge.jpg")
        then Some "write huge.jpg: no space left on device"
        else None, tt);
     diskShort := fun _ name _ =>
       if decide (name = "huge.jpg") then Some 2 else None;
     combinedOutput := fun _ fs argv =>
       match argv with
       | [_; inp; _; _; _; _; _; out] =>
           match fs !! inp with
           | Some b =>
               if decide (inp = "broken.jpg")
               then (String.list_byte_of_string "convert: corrupt image",
                     Some "exit status 1", fs, tt)
               else ([], None, <[out := b]> fs, tt)
           | None => ([], Some "exit status 1", fs, tt)
           end
       | _ => ([], Some "exit status 1", fs, tt)
       end;
     objectsInsert := fun _ bucket name _ =>
       if decide (bucket = "readonly")
       then (Err "googleapi: Error 403: Forbidden", tt)
       else (Ok {| Name := name; SelfLink := "self/" +:+ name;
                   MediaLink := "media/" +:+ name |}, tt) |}.

Definition world0 : World unit := {| ext := tt; files := ∅; trace := [] |}.

Definition eiffel : processImageReq :=
  {| sourceBucket := "photos"; filename := "eiffel.jpg";
     saveToBucket := "thumbs"; saveToFilename := "eiffel-t.jpg" |}.

Definition missingObject : processImageReq :=
  {| sourceBucket := "missing"; filename := "eiffel.jpg";
     saveToBucket := "thumbs"; saveToFilename := "eiffel-t.jpg" |}.

Definition unreachable : processImageReq :=
  {| sourceBucket := "photos"; filename := "unreachable.jpg";
     saveToBucket := "thumbs"; saveToFilename := "unreachable-t.jpg" |}.

Definition huge : processImageReq :=
  {| sourceBucket := "photos"; filename := "huge.jpg";
     saveToBucket := "thumbs"; saveToFilename := "huge-t.jpg" |}.

Definition broken : processImageReq :=
  {| sourceBucket := "photos"; filename := "broken.jpg";
     saveToBucket := "thumbs"; saveToFilename := "broken-t.jpg" |}.

Definition refused : processImageReq :=
  {| sourceBucket := "photos"; filename := "eiffel.jpg";
     saveToBucket := "readonly"; saveToFilename := "eiffel-t.jpg" |}.

(** Serving requests one after the other, the workers taking nothing
    in between: the channel at the end, and the statuses in order. *)
Fixpoint serveEach (hostname : string) (c : Chan) (rs : list FormRequest)
    : Chan * list Z :=
  match rs with
  | [] => (c, [])
  | r :: rest =>
      let '(c', w) := ServeHTTP hostname c newWriter r in
      let '(c'', sts) := serveEach hostname c' rest in
      (c'', status w :: sts)
  end.

(** Serving requests one after the other while no worker takes anything
    from the queue, so that no goroutine is ready to receive: the
    channel at the end, and the statuses in order. *)
Definition serveAll (hostname : string) (c : Chan) (rs : list FormRequest)
    : Chan * list Z :=
  serveEach hostname (parked 0 c) rs.

(** The free slots of a channel. *)
Definition freeSlots (c : Chan) : nat := capacity c - length (buf c).

Section Exchange.

Context {T : Type} (inner : T → Request → result Response * T).

(** Handing requests to the wrapped transport one after the other: its
    answers, and its state at the end. *)
Fixpoint exchange (st : T) (reqs : list Request)
    : list (result Response) * T :=
  match reqs with
  | [] => ([], st)
  | rq :: rest =>
      let '(a, st') := inner st rq in
      let '(answers, st'') := exchange st' rest in
      (a :: answers, st'')
  end.

End Exchange.

(** An answer that is an error of the wrapped transport. *)
Definition errorAnswer (a : result Response) : bool :=
  match a with
  | Ok _ => false
  | Err _ => true
  end.

(** A wrapped transport that never gets a response. *)
Definition unreachableHost (_ : unit) (_ : Request) : result Response * unit :=
  (Err "dial tcp: connection refused", tt).

(** A request whose body ends with a read error. *)
Definition brokenUpload : Request :=
  {| Method := "POST";
     URL := "https://storage.example/upload";
     Header := ∅;
     Body := Some {| GoLib.pending := []; GoLib.fault := Some "unexpected EOF" |} |}.

(** A copy call was made with these four names. *)
Definition copyCallOf (sb sn db dn : string) (call : CopyCall) : Prop :=
  copySourceBucket call = sb ∧ copySourceName call = sn
  ∧ copyDestBucket call = db ∧ copyDestName call = dn.

(** A copy call to the destination name [dn] that failed. *)
Definition failedCopyTo (dn : string) (call : CopyCall) : Prop :=
  copyDestName call = dn ∧ copyError call ≠ None.

Global Instance failedCopyTo_dec (dn : string) (call : CopyCall) :
  Decision (failedCopyTo dn call).
Proof. unfold failedCopyTo. apply _. Defined.

(** Fixtures: a storage service that refuses every copy whose destination
    name starts with [1-], and counts the copies it was asked for. *)
Definition pickyStorage : CopyService nat :=
  fun n _ _ _ dn =>
    (match dn with
     | String "1" (String "-" _) => Some "googleapi: Error 503"
     | _ => None
     end, S n).

(** The objects of the pages that a sequence of list calls got. *)
Definition itemsOf (calls : list DuplicateFiles.ListCall)
    : list DuplicateFiles.Object :=
  concat ((λ call, match DuplicateFiles.listAnswer call with
                   | Ok page => DuplicateFiles.Items page
                   | Err _ => []
                   end) <$> calls).

(** A sequence of list calls for the bucket [b] that follows the page
    tokens: the first call carries [token], a call after a page carries
    the token of that page, which is not empty, and no call follows an
    error. *)
Fixpoint chained (b token : string) (calls : list DuplicateFiles.ListCall)
    : Prop :=
  match calls with
  | [] => True
  | call :: rest =>
      DuplicateFiles.listBucket call = b
      ∧ DuplicateFiles.listToken call = token
      ∧ match DuplicateFiles.listAnswer call with
        | Ok page =>
            rest = []
            ∨ (DuplicateFiles.NextPageToken page ≠ EmptyString
               ∧ chained b (DuplicateFiles.NextPageToken page) rest)
        | Err _ => rest = []
        end
  end.

(** A list call that got a page that is not the last one. *)
Definition gotInnerPage (call : DuplicateFiles.ListCall) : Prop :=
  ∃ page, DuplicateFiles.listAnswer call = Ok page
          ∧ DuplicateFiles.NextPageToken page ≠ EmptyString.

(** A list call that ends a listing: it got the last page, or an error. *)
Definition endsListing (call : DuplicateFiles.ListCall) : Prop :=
  match DuplicateFiles.listAnswer call with
  | Ok page => DuplicateFiles.NextPageToken page = EmptyString
  | Err _ => True
  end.

(** The pool behind the relay: a POST of a form to the pool is served by
    its handler, which reads the form posted; the answer carries the
    status and the body that the handler wrote.  The state of this
    backend is the queue of the pool. *)
Definition poolPostForm (hostname : string) (c : Chan) (_ : string)
    (values : gmap string (list string)) : result Relay.PostResponse * Chan :=
  let '(c', w) := ServeHTTP hostname c newWriter {| Form := values |} in
  (Ok {| Relay.Status := pretty (status w);
         Relay.StatusCode := status w;
         Relay.Body :=
           GoLib.NewReader (String.list_byte_of_string (written w)) |}, c').

(** A notification for the object [eiffel.jpg] of the bucket [photos]. *)
Definition eiffelNotification : Relay.notification :=
  {| Relay.ID := "photos/eiffel.jpg/1";
     Relay.ObjectName := "eiffel.jpg";
     Relay.ObjectSelfLink :=
       "https://www.googleapis.com/storage/v1/b/photos/o/eiffel.jpg";
     Relay.BucketName := "photos" |}.

(** The form of a task of the relay, for a bucket and an object. *)
Definition taskRequest (bucketName objectName : string) : FormRequest :=
  {| Form := <["bucketName" := [bucketName]]>
             (<["objectName" := [objectName]]> ∅) |}.

(*PART-II-END*)

(* ================================================================== *)
(** * Part III: properties                                              *)
(* ================================================================== *)

(** ** Strings *)

Section StringFacts.

Import GoLib.

Lemma str_app_cons (a : ascii) (s t : string) :
  String a s +:+ t = String a (s +:+ t).
Proof. reflexivity. Qed.

Lemma str_app_empty_r (s : string) : s +:+ EmptyString = s.
Proof. induction s as [|a s IH]; [done|]. by rewrite str_app_cons, IH. Qed.

Lemma str_app_assoc (s t u : string) : (s +:+ t) +:+ u = s +:+ t +:+ u.
Proof.
  induction s as [|a s IH]; [done|]. by rewrite !str_app_cons, IH.
Qed.

Lemma str_length_app (s t : string) :
  String.length (s +:+ t) = String.length s + String.length t.
Proof.
  induction s as [|a s IH]; [done|]. rewrite str_app_cons. simpl. by rewrite IH.
Qed.

Lemma get_app_r (s t : string) (k : nat) :
  String.get (String.length s + k) (s +:+ t) = String.get k t.
Proof. induction s as [|a s IH]; [done|]. rewrite str_app_cons. apply IH. Qed.

Lemma get_is_Some (s : string) (k : nat) :
  k < String.length s → ∃ b, String.get k s = Some b.
Proof.
  revert k. induction s as [|a s IH]; intros k Hk; simpl in *; [lia|].
  destruct k as [|k]; [by eexists|]. apply IH. lia.
Qed.

Lemma get_ge_None (s : string) (k : nat) :
  String.length s ≤ k → String.get k s = None.
Proof.
  revert k. induction s as [|a s IH]; intros k Hk; simpl in *; [done|].
  destruct k as [|k]; [lia|]. apply IH. lia.
Qed.

Lemma sliceFrom_app (s t : string) : sliceFrom (String.length s) (s +:+ t) = t.
Proof. induction s as [|a s IH]; [by destruct t|]. rewrite str_app_cons. apply IH. Qed.

Lemma sliceTo_app (s t : string) : sliceTo (String.length s) (s +:+ t) = s.
Proof.
  induction s as [|a s IH]; [by destruct t|].
  rewrite str_app_cons. simpl. by rewrite IH.
Qed.

Lemma sliceTo_all (s : string) : sliceTo (String.length s) s = s.
Proof. rewrite <- (str_app_empty_r s) at 2. apply sliceTo_app. Qed.

Lemma sliceTo_sliceFrom (n : nat) (s : string) :
  sliceTo n s +:+ sliceFrom n s = s.
Proof.
  revert s. induction n as [|n IH]; intros [|a s]; simpl; try done.
  by rewrite str_app_cons, IH.
Qed.

Lemma get_sliceFrom (n k : nat) (s : string) :
  String.get k (sliceFrom n s) = String.get (n + k) s.
Proof.
  revert s. induction n as [|n IH]; intros [|a s]; simpl; done.
Qed.

Lemma containsByte_app (c : ascii) (s t : string) :
  containsByte c (s +:+ t) = containsByte c s || containsByte c t.
Proof.
  induction s as [|a s IH]; [done|]. rewrite str_app_cons. simpl.
  by destruct (Ascii.eqb a c).
Qed.

Lemma containsByte_get (c : ascii) (s : string) (k : nat) (b : ascii) :
  containsByte c s = false → String.get k s = Some b → b ≠ c.
Proof.
  revert k. induction s as [|a s IH]; intros k Hc Hg; simpl in *; [done|].
  destruct (Ascii.eqb a c) eqn:Ha; [done|].
  destruct k as [|k]; [|by eapply IH].
  injection Hg as <-. by apply Ascii.eqb_neq.
Qed.

Lemma containsByte_false_intro (c : ascii) (s : string) :
  (∀ k, String.get k s ≠ Some c) → containsByte c s = false.
Proof.
  induction s as [|a s IH]; intros H; simpl; [done|].
  destruct (Ascii.eqb a c) eqn:Ha.
  - apply Ascii.eqb_eq in Ha as ->. by destruct (H 0).
  - apply IH. intros k. apply (H (S k)).
Qed.

(** A scan to the left passes over bytes other than the one looked for. *)
Lemma lastIndexLoop_skip (c : ascii) (s : string) (n k : nat) :
  n + k ≤ String.length s →
  (∀ j b, n ≤ j < n + k → String.get j s = Some b → b ≠ c) →
  lastIndexLoop c s (n + k) = lastIndexLoop c s n.
Proof.
  intros Hlen. induction k as [|k IH]; intros Hskip.
  { by rewrite Nat.add_0_r. }
  replace (n + S k) with (S (n + k)) by lia. simpl.
  destruct (get_is_Some s (n + k)) as [b Hb]; [lia|]. rewrite Hb.
  assert (b ≠ c) as Hne by (eapply Hskip; [|done]; lia).
  apply Ascii.eqb_neq in Hne as ->.
  apply IH; [lia|]. intros j b' ? ?. eapply Hskip; [|done]. lia.
Qed.

Lemma lastIndexLoop_after (c : ascii) (s : string) (n j : nat) :
  n ≤ String.length s →
  Z.to_nat (lastIndexLoop c s n + 1) ≤ j < n →
  String.get j s ≠ Some c.
Proof.
  induction n as [|n IH]; intros Hlen Hj; [lia|]. simpl in Hj.
  destruct (get_is_Some s n) as [b Hb]; [lia|]. rewrite Hb in Hj.
  destruct (Ascii.eqb b c) eqn:Hbc; [lia|].
  destruct (decide (j = n)) as [->|].
  - rewrite Hb. intros [= ->]. by rewrite Ascii.eqb_refl in Hbc.
  - apply IH; lia.
Qed.

Lemma LastIndexByte_app (c : ascii) (s t : string) :
  containsByte c t = false →
  LastIndexByte (s +:+ String c t) c = Z.of_nat (String.length s).
Proof.
  intros Ht. unfold LastIndexByte. rewrite str_length_app. simpl.
  replace (String.length s + S (String.length t))
    with (S (String.length s) + String.length t) by lia.
  rewrite lastIndexLoop_skip.
  - simpl. rewrite <- (Nat.add_0_r (String.length s)) at 1.
    rewrite get_app_r. simpl. by rewrite Ascii.eqb_refl.
  - rewrite str_length_app. simpl. lia.
  - intros j b Hj Hb.
    replace j with (String.length s + S (j - S (String.length s))) in Hb by lia.
    rewrite get_app_r in Hb. simpl in Hb. by eapply containsByte_get.
Qed.

Lemma LastIndexByte_absent (c : ascii) (s : string) :
  containsByte c s = false → LastIndexByte s c = (-1)%Z.
Proof.
  intros Hs. unfold LastIndexByte.
  rewrite <- (Nat.add_0_l (String.length s)).
  rewrite lastIndexLoop_skip; [done|lia|].
  intros j b _ Hb. by eapply containsByte_get.
Qed.

(** [path.Split] cuts after the last slash. *)
Lemma Split_at_last_slash (dir file : string) :
  containsByte "/" file = false →
  Split (dir +:+ "/" +:+ file) = (dir +:+ "/", file).
Proof.
  intros Hf. unfold Split.
  change (dir +:+ "/" +:+ file) with (dir +:+ String "/" file).
  rewrite LastIndexByte_app by done.
  replace (Z.to_nat (Z.of_nat (String.length dir) + 1))
    with (String.length (dir +:+ "/")) by (rewrite str_length_app; simpl; lia).
  change (dir +:+ String "/" file) with (dir +:+ "/" +:+ file).
  rewrite <- str_app_assoc. by rewrite sliceTo_app, sliceFrom_app.
Qed.

Lemma Split_without_slash (file : string) :
  containsByte "/" file = false → Split file = (EmptyString, file).
Proof.
  intros Hf. unfold Split. rewrite LastIndexByte_absent by done.
  simpl. by destruct file.
Qed.

Lemma Split_join (p : string) : (Split p).1 +:+ (Split p).2 = p.
Proof. apply sliceTo_sliceFrom. Qed.

(** The file part that [path.Split] returns has no slash. *)
Lemma Split_file_no_slash (p : string) :
  containsByte "/" (Split p).2 = false.
Proof.
  unfold Split. simpl. apply containsByte_false_intro. intros k.
  rewrite get_sliceFrom.
  destruct (decide (Z.to_nat (LastIndexByte p "/" + 1) + k < String.length p)).
  - apply (lastIndexLoop_after "/" p (String.length p)); [done|].
    unfold LastIndexByte in *. lia.
  - rewrite get_ge_None; [done|lia].
Qed.

(** [filepath.Ext] of a name without a slash. *)
Lemma Ext_no_dot (p : string) :
  containsByte "." p = false → Ext p = EmptyString.
Proof.
  intros Hp. unfold Ext. generalize (String.length p) as n.
  induction n as [|n IH]; [done|]. simpl.
  destruct (String.get n p) as [b|] eqn:Hb; [|done].
  destruct (Ascii.eqb b "/"); [done|].
  assert (b ≠ "."%char) as Hne by by eapply containsByte_get.
  by apply Ascii.eqb_neq in Hne as ->.
Qed.

Lemma extLoop_skip (p : string) (n k : nat) :
  n + k ≤ String.length p →
  (∀ j b, n ≤ j < n + k → String.get j p = Some b →
          b ≠ "/"%char ∧ b ≠ "."%char) →
  extLoop p (n + k) = extLoop p n.
Proof.
  intros Hlen. induction k as [|k IH]; intros Hskip.
  { by rewrite Nat.add_0_r. }
  replace (n + S k) with (S (n + k)) by lia. simpl.
  destruct (get_is_Some p (n + k)) as [b Hb]; [lia|]. rewrite Hb.
  destruct (Hskip (n + k) b) as [H1 H2]; [lia|done|].
  apply Ascii.eqb_neq in H1 as ->. apply Ascii.eqb_neq in H2 as ->.
  apply IH; [lia|]. intros j b' ? ?. eapply Hskip; [|done]. lia.
Qed.

Lemma Ext_last_dot (base e : string) :
  containsByte "/" e = false →
  containsByte "." e = false →
  Ext (base +:+ "." +:+ e) = "." +:+ e.
Proof.
  intros Hs Hd. unfold Ext.
  change (base +:+ "." +:+ e) with (base +:+ String "." e).
  rewrite str_length_app. simpl.
  replace (String.length base + S (String.length e))
    with (S (String.length base) + String.length e) by lia.
  rewrite extLoop_skip.
  - simpl. rewrite <- (Nat.add_0_r (String.length base)) at 1.
    rewrite get_app_r. simpl. by rewrite sliceFrom_app.
  - rewrite str_length_app. simpl. lia.
  - intros j b Hj Hb.
    replace j with (String.length base + S (j - S (String.length base)))
      in Hb by lia.
    rewrite get_app_r in Hb. simpl in Hb.
    split; by eapply containsByte_get.
Qed.

End StringFacts.

(** ** Admission *)

Section AdmissionFacts.

Import GoLib.

Lemma getProcessImageReq_missing_id (r : FormRequest) :
  FormValue r "id" = EmptyString →
  getProcessImageReq r = Err "Request did not provide image id.".
Proof. intros H. unfold getProcessImageReq. rewrite H. by case_decide. Qed.

Lemma getProcessImageReq_with_id (r : FormRequest) :
  FormValue r "id" ≠ EmptyString →
  let file := (Split (FormValue r "id")).2 in
  getProcessImageReq r =
    Ok {| sourceBucket := Trim (Split (FormValue r "id")).1 "/";
          filename := file;
          saveToBucket := FormValue r "save-to";
          saveToFilename :=
            sliceTo (String.length file - String.length (Ext file)) file
            +:+ ThumbnailSuffix +:+ Ext file |}.
Proof.
  intros H. unfold getProcessImageReq. case_decide; [done|].
  destruct (Split (FormValue r "id")) as [dir file]. simpl.
  by rewrite str_app_empty_r.
Qed.

Lemma getProcessImageReq_Ok_inv (r : FormRequest) (req : processImageReq) :
  getProcessImageReq r = Ok req →
  FormValue r "id" ≠ EmptyString
  ∧ filename req = (Split (FormValue r "id")).2
  ∧ saveToFilename req =
      sliceTo (String.length (filename req)
               - String.length (Ext (filename req))) (filename req)
      +:+ ThumbnailSuffix +:+ Ext (filename req).
Proof.
  intros H. destruct (decide (FormValue r "id" = EmptyString)) as [He|Hne].
  { by rewrite getProcessImageReq_missing_id in H. }
  rewrite getProcessImageReq_with_id in H by done.
  injection H as <-. by simpl.
Qed.

(** C6.  An identifier [bucket/base.e], with no slash in [base] and
    neither a slash nor a dot in [e], is accepted; the object name of
    the request is [base.e], and its destination object name is [base],
    then the suffix [-t], then [.e].  The destination name is a function
    of the [id] field alone: every request with the same identifier is
    accepted with the same destination name. *)
Theorem destination_name_keeps_extension
    (r : FormRequest) (bucket base e : string) :
  FormValue r "id" = bucket +:+ "/" +:+ base +:+ "." +:+ e →
  containsByte "/" base = false →
  containsByte "/" e = false →
  containsByte "." e = false →
  ∃ req : processImageReq,
    getProcessImageReq r = Ok req
    ∧ filename req = base +:+ "." +:+ e
    ∧ saveToFilename req = base +:+ ThumbnailSuffix +:+ "." +:+ e
    ∧ ∀ r' : FormRequest,
        FormValue r' "id" = FormValue r "id" →
        ∃ req' : processImageReq,
          getProcessImageReq r' = Ok req'
          ∧ saveToFilename req' = saveToFilename req.
Proof.
  intros Hid Hbase He Hdot.
  assert (FormValue r "id" ≠ EmptyString) as Hne.
  { rewrite Hid. by destruct bucket. }
  assert (containsByte "/" (base +:+ "." +:+ e) = false) as Hfile.
  { by rewrite !containsByte_app, Hbase, He. }
  assert (∀ r' : FormRequest,
            FormValue r' "id" = FormValue r "id" →
            ∃ req' : processImageReq,
              getProcessImageReq r' = Ok req'
              ∧ filename req' = base +:+ "." +:+ e
              ∧ saveToFilename req' = base +:+ ThumbnailSuffix +:+ "." +:+ e)
    as Hall.
  { intros r' Hsame. eexists.
    split; [apply getProcessImageReq_with_id; by rewrite Hsame|].
    rewrite Hsame, Hid, Split_at_last_slash by done. simpl.
    rewrite Ext_last_dot by done. split; [done|].
    rewrite !str_length_app.
    replace (String.length base + (String.length "." + String.length e)
             - (String.length "." + String.length e))
      with (String.length base) by lia.
    by rewrite sliceTo_app. }
  destruct (Hall r eq_refl) as (req & Hreq & Hname & Hsave).
  exists req. repeat split; try done.
  intros r' Hsame. destruct (Hall r' Hsame) as (req' & Hreq' & _ & Hsave').
  exists req'. split; [done|]. by rewrite Hsave, Hsave'.
Qed.

Lemma destination_name_keeps_extension_witness :
  ∃ req : processImageReq,
    getProcessImageReq (formRequest "bucket/eiffel.jpg" "thumbs") = Ok req
    ∧ filename req = "eiffel" +:+ "." +:+ "jpg"
    ∧ saveToFilename req = "eiffel" +:+ ThumbnailSuffix +:+ "." +:+ "jpg"
    ∧ ∀ r' : FormRequest,
        FormValue r' "id"
        = FormValue (formRequest "bucket/eiffel.jpg" "thumbs") "id" →
        ∃ req' : processImageReq,
          getProcessImageReq r' = Ok req'
          ∧ saveToFilename req' = saveToFilename req.
Proof.
  apply (destination_name_keeps_extension
           (formRequest "bucket/eiffel.jpg" "thumbs") "bucket" "eiffel" "jpg");
    vm_compute; reflexivity.
Defined.

(** C10.  An identifier [bucket/name] whose object name has no dot is
    accepted, and its destination object name is [name] followed by the
    suffix [-t]. *)
Theorem destination_name_without_extension
    (r : FormRequest) (bucket name : string) :
  FormValue r "id" = bucket +:+ "/" +:+ name →
  containsByte "/" name = false →
  containsByte "." name = false →
  ∃ req : processImageReq,
    getProcessImageReq r = Ok req
    ∧ filename req = name
    ∧ saveToFilename req = name +:+ ThumbnailSuffix.
Proof.
  intros Hid Hslash Hdot.
  assert (FormValue r "id" ≠ EmptyString) as Hne.
  { rewrite Hid. by destruct bucket. }
  eexists. split; [by apply getProcessImageReq_with_id|].
  rewrite Hid, Split_at_last_slash by done. simpl.
  rewrite Ext_no_dot by done. simpl.
  by rewrite Nat.sub_0_r, sliceTo_all, str_app_empty_r.
Qed.

Lemma destination_name_without_extension_witness :
  ∃ req : processImageReq,
    getProcessImageReq (formRequest "bucket/photo" "thumbs") = Ok req
    ∧ filename req = "photo"
    ∧ saveToFilename req = "photo" +:+ ThumbnailSuffix.
Proof.
  apply (destination_name_without_extension
           (formRequest "bucket/photo" "thumbs") "bucket" "photo");
    vm_compute; reflexivity.
Defined.

Lemma status_WriteHeader (code : Z) :
  status (WriteHeader code newWriter) = code.
Proof. reflexivity. Qed.

Lemma status_Fprint (s : string) : status (Fprint s newWriter) = StatusOK.
Proof. reflexivity. Qed.

Lemma trySend_room (c : Chan) (x : processImageReq) :
  length (buf c) < capacity c →
  trySend c x = Some {| buf := buf c ++ [x]; capacity := capacity c;
                        ready := ready c; handed := handed c |}.
Proof. intros H. unfold trySend. by case_decide. Qed.

Lemma trySend_full (c : Chan) (x : processImageReq) :
  capacity c ≤ length (buf c) →
  0 < capacity c ∨ ready c = 0 →
  trySend c x = None.
Proof.
  intros H Hbuffered. unfold trySend. case_decide; [lia|].
  case_decide; [lia|done].
Qed.

Lemma trySend_handoff (c : Chan) (x : processImageReq) :
  capacity c = 0 →
  0 < ready c →
  trySend c x = Some {| buf := buf c; capacity := capacity c;
                        ready := ready c - 1; handed := handed c ++ [x] |}.
Proof.
  intros H Hready. unfold trySend. case_decide; [lia|].
  case_decide; [done|lia].
Qed.

(** C1.  For a well-formed request the handler returns at once, and
    the occupancy of the queue alone decides the outcome: with a free
    slot the request is appended to the queue, the status is 200 and
    the occupancy grows by one; with no free slot the status is 503 and
    the queue is unchanged, the queue being a buffered channel (of
    capacity at least one, as the program makes it) or no worker
    waiting to receive. *)
Theorem admission_decided_by_occupancy
    (hostname : string) (c : Chan) (r : FormRequest) (req : processImageReq) :
  getProcessImageReq r = Ok req →
  (length (buf c) < capacity c →
     status (ServeHTTP hostname c newWriter r).2 = 200%Z
     ∧ written (ServeHTTP hostname c newWriter r).2 = "hostname=" +:+ hostname
     ∧ buf (ServeHTTP hostname c newWriter r).1 = buf c ++ [req]
     ∧ capacity (ServeHTTP hostname c newWriter r).1 = capacity c
     ∧ length (buf (ServeHTTP hostname c newWriter r).1) = length (buf c) + 1)
  ∧ (capacity c ≤ length (buf c) →
     0 < capacity c ∨ ready c = 0 →
     status (ServeHTTP hostname c newWriter r).2 = 503%Z
     ∧ (ServeHTTP hostname c newWriter r).1 = c).
Proof.
  intros Hreq. unfold ServeHTTP. rewrite Hreq. split.
  - intros Hocc. rewrite trySend_room by done. simpl.
    repeat split. rewrite length_app. simpl. lia.
  - intros Hocc Hbuffered. by rewrite trySend_full.
Qed.

Lemma admission_decided_by_occupancy_witness :
  (status (ServeHTTP "host-1" startQueue newWriter
             (formRequest "bucket/eiffel.jpg" "thumbs")).2 = 200%Z
   ∧ buf (ServeHTTP "host-1" startQueue newWriter
            (formRequest "bucket/eiffel.jpg" "thumbs")).1
     = [] ++ [eiffelAdmitted]
   ∧ length (buf (ServeHTTP "host-1" startQueue newWriter
                    (formRequest "bucket/eiffel.jpg" "thumbs")).1) = 0 + 1)
  ∧ (status (ServeHTTP "host-1" (parked 2 fullChan) newWriter
               (formRequest "bucket/eiffel.jpg" "thumbs")).2 = 503%Z
     ∧ (ServeHTTP "host-1" (parked 2 fullChan) newWriter
          (formRequest "bucket/eiffel.jpg" "thumbs")).1 = parked 2 fullChan).
Proof.
  split.
  - destruct (admission_decided_by_occupancy "host-1" startQueue
                (formRequest "bucket/eiffel.jpg" "thumbs") eiffelAdmitted)
      as [Hroom _]; [vm_compute; reflexivity|].
    destruct Hroom as (Hst & _ & Hbuf & _ & Hlen); [vm_compute; lia|].
    split; [exact Hst|]. split; [exact Hbuf|exact Hlen].
  - destruct (admission_decided_by_occupancy "host-1" (parked 2 fullChan)
                (formRequest "bucket/eiffel.jpg" "thumbs") eiffelAdmitted)
      as [_ Hfull]; [vm_compute; reflexivity|].
    apply Hfull; simpl; lia.
Defined.

(** The queue that [main] makes has 50 slots: it is a buffered channel,
    and it starts empty, with the two workers waiting. *)
Example program_queue_is_buffered :
  capacity startQueue = 50 ∧ buf startQueue = [] ∧ ready startQueue = 2.
Proof. vm_compute. done. Qed.

(** The scenario of a queue of capacity 2 that no worker drains: the
    first two requests are answered 200, the third 503. *)
Example three_requests_on_a_queue_of_two :
  let r := formRequest "bucket/eiffel.jpg" "thumbs" in
  let s1 := ServeHTTP "host-1" (makeChan 2) newWriter r in
  let s2 := ServeHTTP "host-1" s1.1 newWriter r in
  let s3 := ServeHTTP "host-1" s2.1 newWriter r in
  (status s1.2, status s2.2, status s3.2) = (200, 200, 503)%Z
  ∧ length (buf s3.1) = 2.
Proof. vm_compute. done. Qed.

(** On a channel without a buffer the send goes through when a worker
    waits to receive: the request reaches that worker, nothing is
    buffered, and the status is 200; when no worker waits it is 503. *)
Example unbuffered_send_needs_a_waiting_worker :
  let r := formRequest "bucket/eiffel.jpg" "thumbs" in
  let s1 := ServeHTTP "host-1" (parked 1 (makeChan 0)) newWriter r in
  let s2 := ServeHTTP "host-1" s1.1 newWriter r in
  (status s1.2, status s2.2) = (200, 503)%Z
  ∧ buf s2.1 = [] ∧ handed s2.1 = [eiffelAdmitted] ∧ ready s2.1 = 0.
Proof. vm_compute. done. Qed.

(** C8, as the code has it.  Admission answers 500 exactly when the
    [id] field is missing or empty, and then nothing is enqueued.  An
    identifier that is not empty and has no slash is accepted, with an
    empty source bucket and the whole identifier as object name; an
    identifier that ends with a slash is accepted, with an empty object
    name and the destination name [-t].  With a free slot in the queue
    such a request is queued and answered 200. *)
Theorem admission_rejects_exactly_empty_id
    (hostname : string) (c : Chan) (r : FormRequest) :
  (status (ServeHTTP hostname c newWriter r).2 = 500%Z
     ↔ FormValue r "id" = EmptyString)
  ∧ (FormValue r "id" = EmptyString →
     (ServeHTTP hostname c newWriter r).1 = c)
  ∧ (FormValue r "id" ≠ EmptyString →
     containsByte "/" (FormValue r "id") = false →
     ∃ req : processImageReq,
       getProcessImageReq r = Ok req
       ∧ sourceBucket req = EmptyString
       ∧ filename req = FormValue r "id"
       ∧ (length (buf c) < capacity c →
          status (ServeHTTP hostname c newWriter r).2 = 200%Z
          ∧ buf (ServeHTTP hostname c newWriter r).1 = buf c ++ [req]))
  ∧ (∀ dir : string,
     FormValue r "id" = dir +:+ "/" →
     ∃ req : processImageReq,
       getProcessImageReq r = Ok req
       ∧ filename req = EmptyString
       ∧ saveToFilename req = ThumbnailSuffix
       ∧ (length (buf c) < capacity c →
          status (ServeHTTP hostname c newWriter r).2 = 200%Z
          ∧ buf (ServeHTTP hostname c newWriter r).1 = buf c ++ [req])).
Proof.
  assert (∀ req : processImageReq,
            getProcessImageReq r = Ok req →
            length (buf c) < capacity c →
            status (ServeHTTP hostname c newWriter r).2 = 200%Z
            ∧ buf (ServeHTTP hostname c newWriter r).1 = buf c ++ [req])
    as Hqueued.
  { intros req Hreq Hroom. unfold ServeHTTP.
    by rewrite Hreq, trySend_room. }
  split; [|split; [|split]].
  - unfold ServeHTTP.
    destruct (decide (FormValue r "id" = EmptyString)) as [He|Hne].
    + by rewrite getProcessImageReq_missing_id.
    + rewrite getProcessImageReq_with_id by done. cbv zeta.
      split; [|done]. unfold trySend. by repeat case_decide.
  - intros He. unfold ServeHTTP. by rewrite getProcessImageReq_missing_id.
  - intros Hne Hslash. eexists.
    split; [by apply getProcessImageReq_with_id|].
    rewrite Split_without_slash by done.
    split; [done|]. split; [done|].
    apply Hqueued. rewrite getProcessImageReq_with_id by done.
    by rewrite Split_without_slash.
  - intros dir Hid.
    assert (FormValue r "id" ≠ EmptyString) as Hne.
    { rewrite Hid. by destruct dir. }
    assert (Split (FormValue r "id") = (dir +:+ "/", EmptyString)) as Hsplit.
    { rewrite Hid. rewrite <- (str_app_empty_r "/") at 1.
      by apply Split_at_last_slash. }
    eexists. split; [by apply getProcessImageReq_with_id|].
    rewrite Hsplit. split; [done|]. split; [done|].
    apply Hqueued. rewrite getProcessImageReq_with_id by done.
    by rewrite Hsplit.
Qed.

Lemma admission_rejects_exactly_empty_id_witness :
  status (ServeHTTP "host-1" (makeChan 1) newWriter
            (formRequestWithoutId "thumbs")).2 = 500%Z
  ∧ (∃ req : processImageReq,
       getProcessImageReq (formRequest "photo.jpg" "thumbs") = Ok req
       ∧ sourceBucket req = EmptyString
       ∧ filename req = "photo.jpg"
       ∧ status (ServeHTTP "host-1" (makeChan 1) newWriter
                   (formRequest "photo.jpg" "thumbs")).2 = 200%Z
       ∧ buf (ServeHTTP "host-1" (makeChan 1) newWriter
                (formRequest "photo.jpg" "thumbs")).1 = [] ++ [req])
  ∧ ∃ req : processImageReq,
      getProcessImageReq (formRequest "photos/" "thumbs") = Ok req
      ∧ filename req = EmptyString
      ∧ saveToFilename req = ThumbnailSuffix
      ∧ status (ServeHTTP "host-1" (makeChan 1) newWriter
                  (formRequest "photos/" "thumbs")).2 = 200%Z
      ∧ buf (ServeHTTP "host-1" (makeChan 1) newWriter
               (formRequest "photos/" "thumbs")).1 = [] ++ [req].
Proof.
  split; [|split].
  - destruct (admission_rejects_exactly_empty_id "host-1" (makeChan 1)
                (formRequestWithoutId "thumbs")) as (Hiff & _).
    apply Hiff. vm_compute. reflexivity.
  - destruct (admission_rejects_exactly_empty_id "host-1" (makeChan 1)
                (formRequest "photo.jpg" "thumbs")) as (_ & _ & Hbare & _).
    destruct Hbare as (req & Hreq & Hb & Hf & Hq);
      [vm_compute; discriminate|vm_compute; reflexivity|].
    destruct Hq as [Hst Hbuf]; [simpl; lia|].
    exists req. split; [exact Hreq|]. split; [exact Hb|].
    split; [exact Hf|]. split; [exact Hst|exact Hbuf].
  - destruct (admission_rejects_exactly_empty_id "host-1" (makeChan 1)
                (formRequest "photos/" "thumbs")) as (_ & _ & _ & Hdir).
    destruct (Hdir "photos") as (req & Hreq & Hf & Hs & Hq);
      [vm_compute; reflexivity|].
    destruct Hq as [Hst Hbuf]; [simpl; lia|].
    exists req. split; [exact Hreq|]. split; [exact Hf|].
    split; [exact Hs|]. split; [exact Hst|exact Hbuf].
Defined.

(** A request without an [id] field is answered 500, whatever the queue
    holds. *)
Example missing_id_is_rejected (hostname saveTo : string) (c : Chan) :
  ServeHTTP hostname c newWriter (formRequestWithoutId saveTo)
  = (c, {| header := Some 500%Z; written := EmptyString |}).
Proof. reflexivity. Qed.

(** The identifier [photo.jpg] is queued with an empty source bucket,
    and the identifier [photos/] with an empty object name. *)
Example unsplittable_ids_are_queued :
  ServeHTTP "host-1" (makeChan 2) newWriter (formRequest "photo.jpg" "thumbs")
  = ({| buf := [{| sourceBucket := ""; filename := "photo.jpg";
                   saveToBucket := "thumbs";
                   saveToFilename := "photo-t.jpg" |}];
        capacity := 2; ready := 0; handed := [] |},
     {| header := Some 200%Z; written := "hostname=host-1" |})
  ∧ ServeHTTP "host-1" (makeChan 2) newWriter (formRequest "photos/" "thumbs")
    = ({| buf := [{| sourceBucket := "photos"; filename := "";
                     saveToBucket := "thumbs"; saveToFilename := "-t" |}];
          capacity := 2; ready := 0; handed := [] |},
       {| header := Some 200%Z; written := "hostname=host-1" |}).
Proof. vm_compute. done. Qed.

(** C8, counterexample.  The identifier [photo.jpg] has no slash, so it
    does not split into a bucket and an object name; yet the request is
    not answered 500: it is queued, with an empty source bucket. *)
Lemma admission_accepts_id_without_bucket :
  let r := formRequest "photo.jpg" "thumbs" in
  ¬ (status (ServeHTTP "host-1" (makeChan 1) newWriter r).2 = 500%Z
     ↔ (FormValue r "id" = EmptyString
        ∨ ¬ splitsIntoBucketAndObject (FormValue r "id"))).
Proof.
  intros r [_ H].
  assert (status (ServeHTTP "host-1" (makeChan 1) newWriter r).2 = 500%Z)
    as Hst; [|by vm_compute in Hst].
  apply H. right. intros (bucket & name & Hid & _ & _).
  assert (containsByte "/" (FormValue r "id") = true) as Hc.
  { rewrite Hid, !containsByte_app. simpl. by rewrite orb_true_r. }
  by vm_compute in Hc.
Qed.

End AdmissionFacts.

(** ** The retrying transport *)

(** The retryable set is the five codes of the table. *)
Lemma retryable_iff (code : Z) :
  retryable code = true ↔ code ∈ [403; 500; 502; 503; 504]%Z.
Proof.
  unfold retryable, retryableCodes, StatusForbidden, StatusInternalServerError,
    StatusBadGateway, StatusServiceUnavailable, StatusGatewayTimeout.
  rewrite !elem_of_cons, elem_of_nil.
  repeat (rewrite lookup_insert; case_decide; [subst; simpl; tauto|]).
  rewrite lookup_empty. simpl. intuition congruence.
Qed.

Lemma cloneValues_id (vv : list string) : cloneValues vv = vv.
Proof. unfold cloneValues. apply firstn_all. Qed.

(** The header of a copy has the keys and values of the original. *)
Lemma mirror_Header (req : Request) (body : list byte) :
  Header (mirror req body) = Header req.
Proof.
  simpl.
  apply (map_fold_weak_ind (λ h m, h = m)); [done|].
  intros k vv m h _ ->. by rewrite cloneValues_id.
Qed.

Lemma cutoff_all (l : list (Request * result Response)) :
  Forall (λ x, continues x.2 = true) l → cutoff l = l.
Proof.
  induction 1 as [|[rq a] l Ha _ IH]; [done|]. simpl in *. by rewrite Ha, IH.
Qed.

Lemma cutoff_at (l : list (Request * result Response)) (k : nat)
    (rq : Request) (a : result Response) :
  (∀ j x, j < k → l !! j = Some x → continues x.2 = true) →
  l !! k = Some (rq, a) →
  continues a = false →
  cutoff l = take (S k) l.
Proof.
  revert k. induction l as [|[rq' a'] l IH]; intros k Hbefore Hk Ha; [done|].
  destruct k as [|k]; simpl in *.
  - injection Hk as -> ->. rewrite Ha. by rewrite take_0.
  - pose proof (Hbefore 0 (rq', a') ltac:(lia) eq_refl) as Ha'.
    simpl in Ha'. rewrite Ha'. f_equal. apply IH; [|done..].
    intros j x Hj Hx. apply (Hbefore (S j) x); [lia|done].
Qed.

Lemma cutoff_length_le (l : list (Request * result Response)) :
  length (cutoff l) ≤ length l.
Proof.
  induction l as [|[rq a] l IH]; [done|]. simpl.
  destruct (continues a); simpl; lia.
Qed.

(** In the attempts made, an answer that ends the loop is the last one,
    and an answer that does not is followed by the next attempt of the
    schedule, if the schedule has one. *)
Lemma cutoff_lookup (l : list (Request * result Response)) (j : nat)
    (rq : Request) (a : result Response) :
  cutoff l !! j = Some (rq, a) →
  l !! j = Some (rq, a)
  ∧ (continues a = false → S j = length (cutoff l))
  ∧ (continues a = true → cutoff l !! S j = l !! S j).
Proof.
  revert j. induction l as [|[rq' a'] l IH]; intros j Hj; [done|].
  simpl in *. destruct (continues a') eqn:Ha'.
  - destruct j as [|j]; simpl in *.
    + injection Hj as -> ->. split; [done|]. split; [congruence|].
      intros _. destruct l as [|[rq2 a2] l2]; [done|].
      simpl. by destruct (continues a2).
    + destruct (IH j Hj) as (? & ? & ?). split; [done|]. split; [|done].
      intros ?. f_equal. auto.
  - destruct j as [|j]; simpl in *; [|done].
    injection Hj as -> ->. split; [done|]. split; [done|congruence].
Qed.

(** An attempt of the schedule is made when every answer before it lets
    the loop go on. *)
Lemma cutoff_reaches (l : list (Request * result Response)) (k : nat)
    (x : Request * result Response) :
  (∀ j y, j < k → l !! j = Some y → continues y.2 = true) →
  l !! k = Some x →
  cutoff l !! k = Some x.
Proof.
  revert k. induction l as [|[rq' a'] l IH]; intros k Hbefore Hk; [done|].
  destruct k as [|k]; simpl in *.
  - injection Hk as <-. by destruct (continues a').
  - pose proof (Hbefore 0 (rq', a') ltac:(lia) eq_refl) as Ha'.
    simpl in Ha'. rewrite Ha'. simpl. apply IH; [|done].
    intros j y Hj Hy. apply (Hbefore (S j) y); [lia|done].
Qed.

Lemma last_cutoff_cons (rq : Request) (a : result Response)
    (l : list (Request * result Response)) (r0 : option Response)
    (e0 : option string) :
  continues a = true →
  outcome r0 e0 (cutoff ((rq, a) :: l))
  = outcome (match a with
             | Ok r => Some (closeBody r)
             | Err _ => None
             end)
            (match a with
             | Ok _ => None
             | Err e => Some e
             end)
            (cutoff l).
Proof.
  intros Ha. simpl. rewrite Ha. unfold outcome.
  destruct (cutoff l) as [|x l'] eqn:Hl.
  - simpl. destruct a as [r|e]; [|done]. simpl in Ha. by rewrite Ha.
  - change (last ((rq, a) :: x :: l')) with (last (x :: l')).
    destruct (last (x :: l')) as [[? [?|?]]|] eqn:Hlast; try done.
    by apply last_None in Hlast.
Qed.

Section RetryFacts.

Context (urlParses : string → bool) {T : Type}
        (inner : T → Request → result Response * T).

Lemma copyRequest_parses (req : Request) (body : list byte) :
  urlParses (URL req) = true →
  copyRequest urlParses req body = Done (mirror req body).
Proof. intros H. unfold copyRequest, NewRequest. by rewrite H. Qed.

Lemma play_length (n : nat) (i : Z) (req : Request) (body : list byte)
    (st : T) :
  length (play T inner n i req body st) = n.
Proof.
  revert i req st. induction n as [|n IH]; intros i req st; [done|].
  simpl. destruct (inner st _) as [a st']. simpl. by rewrite IH.
Qed.

(** The requests of a schedule: the one at iteration 0 is the request
    the loop started with; every later one is a copy that carries the
    buffered body and the method, URL and header of the first. *)
Lemma play_requests (n : nat) (i : Z) (req : Request) (body : list byte)
    (st : T) (j : nat) (rq : Request) (a : result Response) :
  (0 ≤ i)%Z →
  play T inner n i req body st !! j = Some (rq, a) →
  ((i + Z.of_nat j = 0)%Z → rq = req)
  ∧ ((i + Z.of_nat j ≠ 0)%Z → bodyBytes rq = body)
  ∧ Method rq = Method req ∧ URL rq = URL req ∧ Header rq = Header req.
Proof.
  revert i req st j. induction n as [|n IH]; intros i req st j Hi Hj; [done|].
  simpl in Hj. destruct (inner st _) as [a' st'] eqn:Hin.
  destruct j as [|j]; simpl in Hj.
  - injection Hj as <- <-. case_decide as Hi0.
    + split; [lia|]. split; [done|]. by rewrite mirror_Header.
    + split; [done|]. split; [lia|done].
  - apply IH in Hj as (_ & Hb & Hm & Hu & Hh); [|lia].
    split; [lia|]. split; [intros _; apply Hb; lia|].
    rewrite Hm, Hu, Hh. case_decide; [|done]. by rewrite mirror_Header.
Qed.

(** The loop makes the attempts of its schedule up to the first answer
    that ends it, and returns what the last of them leaves. *)
Lemma tries_cutoff (n : nat) (i : Z) (req : Request) (body : list byte)
    (s : RoundTripState T) :
  urlParses (URL req) = true →
  ∃ s' : RoundTripState T,
    tries urlParses T inner n i req body s = Done s'
    ∧ attempts s' = attempts s ++ cutoff (play T inner n i req body (net s))
    ∧ (resp s', err s')
      = outcome (resp s) (err s) (cutoff (play T inner n i req body (net s))).
Proof.
  revert i req s. induction n as [|n IH]; intros i req s Hurl.
  { exists s. simpl. by rewrite app_nil_r. }
  cbn [tries play].
  assert ((if decide (i ≠ 0%Z) then copyRequest urlParses req body
           else Done req)
          = Done (if decide (i ≠ 0%Z) then mirror req body else req)) as ->.
  { case_decide; [by apply copyRequest_parses|done]. }
  set (req' := if decide (i ≠ 0%Z) then mirror req body else req).
  assert (urlParses (URL req') = true) as Hurl'.
  { subst req'. by case_decide. }
  destruct (inner (net s) req') as [a st'] eqn:Hin.
  destruct a as [r|e].
  - destruct (retryable (StatusCode r)) eqn:Hr.
    + edestruct (IH (i + 1)%Z req') as (s' & -> & Hatt & Hout); [done|].
      exists s'. split; [done|]. simpl in Hatt, Hout.
      rewrite Hatt, Hout, <- app_assoc. split; [|by rewrite last_cutoff_cons].
      simpl. by rewrite Hr.
    + eexists. split; [done|]. simpl. rewrite Hr. split; [done|].
      unfold outcome. simpl. by rewrite Hr.
  - edestruct (IH (i + 1)%Z req') as (s' & -> & Hatt & Hout); [done|].
    exists s'. split; [done|]. simpl in Hatt, Hout.
    rewrite Hatt, Hout, <- app_assoc. split; [done|].
    by rewrite last_cutoff_cons.
Qed.

(** A call of [RoundTrip] on a request with a readable body whose URL
    parses returns; it has made the attempts of its schedule up to the
    first answer that ends the loop. *)
Lemma RoundTrip_cutoff (maxTries : Z) (req : Request) (st : T) :
  urlParses (URL req) = true →
  readable req →
  ∃ s : RoundTripState T,
    RoundTrip urlParses T inner maxTries req st = Done s
    ∧ attempts s = cutoff (schedule T inner maxTries req st)
    ∧ (resp s, err s)
      = outcome None None (cutoff (schedule T inner maxTries req st)).
Proof.
  intros Hurl Hread. unfold RoundTrip, schedule, drained, bodyBytes.
  destruct (Body req) as [rd|] eqn:Hbody.
  - simpl. rewrite (Hread rd) by done.
    by apply (tries_cutoff _ _ _ _ (mkRT None None st [])).
  - by apply (tries_cutoff _ _ _ _ (mkRT None None st [])).
Qed.

End RetryFacts.

Lemma drained_fields (req : Request) :
  Method (drained req) = Method req
  ∧ URL (drained req) = URL req
  ∧ Header (drained req) = Header req
  ∧ bodyBytes (drained req) = [].
Proof.
  unfold drained, bodyBytes. destruct (Body req) as [rd|] eqn:Hb; simpl; [done|].
  by rewrite Hb.
Qed.

Lemma last_of_lookup {A} (l : list A) (j : nat) (x : A) :
  l !! j = Some x → S j = length l → last l = Some x.
Proof. intros Hj Hlen. rewrite last_lookup, <- Hlen. done. Qed.

Section RetryClaims.

Context (urlParses : string → bool) {T : Type}
        (inner : T → Request → result Response * T).

(** The first attempt is made with the request as the reading of its
    body left it, so it carries no body bytes; every later attempt is
    made with a copy that carries the buffered body. *)
Lemma attempt_bodies (maxTries : Z) (req : Request) (st : T)
    (s : RoundTripState T) (j : nat) (rq : Request) (a : result Response) :
  urlParses (URL req) = true →
  readable req →
  RoundTrip urlParses T inner maxTries req st = Done s →
  attempts s !! j = Some (rq, a) →
  (j = 0 → rq = drained req ∧ bodyBytes rq = [])
  ∧ (0 < j → bodyBytes rq = bodyBytes req)
  ∧ Method rq = Method req ∧ URL rq = URL req ∧ Header rq = Header req.
Proof.
  intros Hurl Hread Hrun Hj.
  destruct (RoundTrip_cutoff urlParses inner maxTries req st Hurl Hread)
    as (s' & Hrun' & Hatt & _).
  rewrite Hrun in Hrun'. injection Hrun' as <-.
  rewrite Hatt in Hj. apply cutoff_lookup in Hj as (Hj & _).
  apply play_requests in Hj as (H0 & Hpos & Hm & Hu & Hh); [|done].
  destruct (drained_fields req) as (Hm' & Hu' & Hh' & Hb').
  rewrite Hm, Hu, Hh. split; [|split; [|done]].
  - intros ->. by rewrite H0.
  - intros ?. apply Hpos. lia.
Qed.

(** When the first [k] answers are responses with a retryable status
    and the next answer is a response with another status, with
    [k < maxTries], the call returns that response, as the wrapped
    transport gave it, after exactly [k + 1] attempts. *)
Lemma retry_returns_first_final_response
    (maxTries : Z) (req : Request) (st : T) (k : nat) (rq : Request)
    (r : Response) :
  urlParses (URL req) = true →
  readable req →
  (Z.of_nat k < maxTries)%Z →
  (∀ j x, j < k → schedule T inner maxTries req st !! j = Some x →
          retryableAnswer x.2 = true) →
  schedule T inner maxTries req st !! k = Some (rq, Ok r) →
  retryable (StatusCode r) = false →
  ∃ s : RoundTripState T,
    RoundTrip urlParses T inner maxTries req st = Done s
    ∧ resp s = Some r ∧ err s = None
    ∧ length (attempts s) = S k
    ∧ attempts s = take (S k) (schedule T inner maxTries req st).
Proof.
  intros Hurl Hread Hk Hbefore Hat Hr.
  destruct (RoundTrip_cutoff urlParses inner maxTries req st Hurl Hread)
    as (s & Hrun & Hatt & Hout).
  exists s. split; [done|].
  assert (cutoff (schedule T inner maxTries req st)
          = take (S k) (schedule T inner maxTries req st)) as Hcut.
  { apply (cutoff_at _ k rq (Ok r)); [|done..].
    intros j [rq' a'] Hj Hx. specialize (Hbefore j _ Hj Hx).
    by destruct a'. }
  rewrite Hcut in Hatt, Hout.
  assert (length (attempts s) = S k) as Hlen.
  { rewrite Hatt, length_take. unfold schedule. rewrite play_length. lia. }
  assert (last (attempts s) = Some (rq, Ok r)) as Hlast.
  { apply (last_of_lookup _ k); [|done].
    rewrite Hatt, lookup_take_lt by lia. done. }
  rewrite <- Hatt in Hout. unfold outcome in Hout.
  rewrite Hlast, Hr in Hout. injection Hout as -> ->. done.
Qed.

(** When every one of the [maxTries] answers is a response with a
    retryable status, the call makes exactly [maxTries] attempts and
    returns the last response, its body closed. *)
Lemma retry_exhausted_returns_last_response_closed
    (maxTries : Z) (req : Request) (st : T) :
  urlParses (URL req) = true →
  readable req →
  (0 < maxTries)%Z →
  Forall (λ x, retryableAnswer x.2 = true)
         (schedule T inner maxTries req st) →
  ∃ (s : RoundTripState T) (rq : Request) (r : Response),
    RoundTrip urlParses T inner maxTries req st = Done s
    ∧ attempts s = schedule T inner maxTries req st
    ∧ length (attempts s) = Z.to_nat maxTries
    ∧ last (attempts s) = Some (rq, Ok r)
    ∧ retryable (StatusCode r) = true
    ∧ resp s = Some (closeBody r)
    ∧ err s = None.
Proof.
  intros Hurl Hread Hpos Hall.
  destruct (RoundTrip_cutoff urlParses inner maxTries req st Hurl Hread)
    as (s & Hrun & Hatt & Hout).
  rewrite cutoff_all in Hatt, Hout.
  2,3: eapply Forall_impl; [exact Hall|]; by intros [? [?|?]].
  assert (length (attempts s) = Z.to_nat maxTries) as Hlen.
  { rewrite Hatt. unfold schedule. by rewrite play_length. }
  destruct (last (attempts s)) as [[rq [r|e]]|] eqn:Hlast.
  - assert (retryable (StatusCode r) = true) as Hr.
    { rewrite Forall_forall in Hall. rewrite Hatt in Hlast.
      apply last_Some_elem_of in Hlast.
      apply (Hall _ Hlast). }
    exists s, rq, r. unfold outcome in Hout. rewrite <- Hatt, Hlast, Hr in Hout.
    injection Hout as -> ->. done.
  - rewrite Forall_forall in Hall. rewrite Hatt in Hlast.
    apply last_Some_elem_of in Hlast.
    by specialize (Hall _ Hlast).
  - apply last_None in Hlast. rewrite Hlast in Hlen. simpl in Hlen. lia.
Qed.

(** C5.  The retryable set is the five codes 403, 500, 502, 503 and
    504.  Let the wrapped transport answer attempt [k + 1] with the
    response [r], and every earlier attempt with an error or with a
    response of the set.  Then the call returns and attempt [k + 1] is
    made.  When the status of [r] is in the set and tries are left,
    another attempt follows, made with a rebuilt request that has the
    method, URL, header and buffered body of the original; when no try
    is left, [r] is returned with its body closed.  When the status of
    [r] is outside the set, attempt [k + 1] is the last one and the call
    returns [r] as it came, with no error. *)
Theorem retry_loop_follows_retryable_set
    (code : Z) (maxTries : Z) (req : Request) (st : T) (k : nat)
    (rq : Request) (r : Response) :
  urlParses (URL req) = true →
  readable req →
  (∀ j x, j < k → schedule T inner maxTries req st !! j = Some x →
          continues x.2 = true) →
  schedule T inner maxTries req st !! k = Some (rq, Ok r) →
  (retryable code = true ↔ code ∈ [403; 500; 502; 503; 504]%Z)
  ∧ ∃ s : RoundTripState T,
      RoundTrip urlParses T inner maxTries req st = Done s
      ∧ attempts s !! k = Some (rq, Ok r)
      ∧ (retryable (StatusCode r) = true →
           (S k < Z.to_nat maxTries →
              ∃ rq' a', attempts s !! S k = Some (rq', a')
                        ∧ S k < length (attempts s)
                        ∧ Method rq' = Method req ∧ URL rq' = URL req
                        ∧ Header rq' = Header req
                        ∧ bodyBytes rq' = bodyBytes req)
           ∧ (S k = Z.to_nat maxTries →
                length (attempts s) = S k
                ∧ resp s = Some (closeBody r) ∧ err s = None))
      ∧ (retryable (StatusCode r) = false →
           length (attempts s) = S k
           ∧ resp s = Some r ∧ err s = None).
Proof.
  intros Hurl Hread Hbefore Hk. split; [apply retryable_iff|].
  destruct (RoundTrip_cutoff urlParses inner maxTries req st Hurl Hread)
    as (s & Hrun & Hatt & Hout).
  exists s. split; [done|].
  assert (attempts s !! k = Some (rq, Ok r)) as Hj.
  { rewrite Hatt. by apply cutoff_reaches. }
  split; [done|].
  pose proof Hj as Hj'. rewrite Hatt in Hj'.
  apply cutoff_lookup in Hj' as (_ & Hstop & Hgo). simpl in Hstop, Hgo.
  rewrite <- Hatt in Hstop, Hgo, Hout. unfold outcome in Hout.
  assert (length (schedule T inner maxTries req st) = Z.to_nat maxTries)
    as Hsched.
  { unfold schedule. by rewrite play_length. }
  split; intros Hr.
  - split.
    + intros Hleft.
      destruct (lookup_lt_is_Some_2 (schedule T inner maxTries req st) (S k))
        as [[rq' a'] Hnext]; [lia|].
      exists rq', a'. rewrite Hgo, Hnext by done. split; [done|].
      split.
      { apply lookup_lt_is_Some. rewrite Hgo by done. by eexists. }
      eapply attempt_bodies in Hrun as (_ & Hb & Hm & Hu & Hh); [|done..|].
      2: { rewrite Hgo by done. exact Hnext. }
      repeat split; try done. apply Hb. lia.
    + intros Hlast.
      assert (length (attempts s) = S k) as Hlen.
      { apply Nat.le_antisymm.
        - rewrite Hatt, Hlast, <- Hsched. apply cutoff_length_le.
        - by apply lookup_lt_Some in Hj. }
      split; [done|].
      rewrite (last_of_lookup _ k _ Hj (eq_sym Hlen)), Hr in Hout.
      by injection Hout as -> ->.
  - specialize (Hstop Hr). split; [done|].
    rewrite (last_of_lookup _ k _ Hj Hstop), Hr in Hout.
    by injection Hout as -> ->.
Qed.

End RetryClaims.

Lemma retry_exhausted_returns_last_response_closed_witness :
  ∃ (s : RoundTripState (list (result Response))) (rq : Request) (r : Response),
    RoundTrip anyUrl _ scripted 2 upload [Ok unavailable; Ok unavailable]
    = Done s
    ∧ attempts s
      = schedule _ scripted 2 upload [Ok unavailable; Ok unavailable]
    ∧ length (attempts s) = Z.to_nat 2
    ∧ last (attempts s) = Some (rq, Ok r)
    ∧ retryable (StatusCode r) = true
    ∧ resp s = Some (closeBody r)
    ∧ err s = None.
Proof.
  apply (retry_exhausted_returns_last_response_closed anyUrl scripted 2 upload
           [Ok unavailable; Ok unavailable]).
  - reflexivity.
  - intros rd [= <-]. reflexivity.
  - lia.
  - vm_compute. repeat constructor.
Defined.

Lemma retry_loop_follows_retryable_set_witness :
  ∃ s : RoundTripState (list (result Response)),
    RoundTrip anyUrl _ scripted 5 upload [Ok unavailable; Ok created] = Done s
    ∧ attempts s !! 0 = Some (drained upload, Ok unavailable)
    ∧ (∃ rq' a', attempts s !! 1 = Some (rq', a')
                 ∧ 1 < length (attempts s)
                 ∧ Method rq' = Method upload ∧ URL rq' = URL upload
                 ∧ Header rq' = Header upload
                 ∧ bodyBytes rq' = bodyBytes upload)
    ∧ attempts s !! 1
      = Some (mirror (drained upload) (String.list_byte_of_string "hi"),
              Ok created)
    ∧ length (attempts s) = 2
    ∧ resp s = Some created
    ∧ err s = None.
Proof.
  destruct (retry_loop_follows_retryable_set anyUrl scripted 503 5 upload
              [Ok unavailable; Ok created] 0 (drained upload) unavailable)
    as (_ & s & Hrun & Hfirst & Hretry & _).
  { reflexivity. }
  { intros rd [= <-]. reflexivity. }
  { intros j x Hj. lia. }
  { vm_compute. reflexivity. }
  destruct (retry_loop_follows_retryable_set anyUrl scripted 200 5 upload
              [Ok unavailable; Ok created] 1
              (mirror (drained upload) (String.list_byte_of_string "hi"))
              created)
    as (_ & s' & Hrun' & Hsecond & _ & Hfinal).
  { reflexivity. }
  { intros rd [= <-]. reflexivity. }
  { intros [|j] x Hj Hx; [|lia]. vm_compute in Hx. by injection Hx as <-. }
  { vm_compute. reflexivity. }
  rewrite Hrun in Hrun'. injection Hrun' as <-.
  destruct (Hretry eq_refl) as [Hnext _].
  destruct (Hfinal eq_refl) as (Hlen & Hresp & Herr).
  exists s. split; [exact Hrun|]. split; [exact Hfirst|].
  split; [apply Hnext; vm_compute; lia|].
  split; [exact Hsecond|]. split; [exact Hlen|]. split; [exact Hresp|exact Herr].
Defined.

(** With one try and a 503 answer, the response returned is not the
    response the wrapped transport gave: its body has been closed. *)
Lemma retry_exhausted_response_is_not_unmodified :
  ¬ ∃ s : RoundTripState (list (result Response)),
      RoundTrip anyUrl _ scripted 1 upload [Ok unavailable] = Done s
      ∧ length (attempts s) = 1
      ∧ resp s = Some unavailable.
Proof.
  intros (s & Hrun & _ & Hresp).
  vm_compute in Hrun. injection Hrun as <-. simpl in Hresp. discriminate.
Qed.

(** C4, at the failing input.  Two tries and two 503 answers: the call
    makes exactly two attempts and returns the second 503 with no error,
    but the response it returns has its body closed, so it is not the
    response as the wrapped transport gave it.  A response with a
    status outside the retryable set is returned with its body open. *)
Theorem retry_exhausted_response_is_closed :
  ∃ s s' : RoundTripState (list (result Response)),
    RoundTrip anyUrl _ scripted 2 upload [Ok unavailable; Ok unavailable]
    = Done s
    ∧ (attempts s).*2 = [Ok unavailable; Ok unavailable]
    ∧ length (attempts s) = 2
    ∧ err s = None
    ∧ resp s = Some (closeBody unavailable)
    ∧ BodyClosed unavailable = false
    ∧ BodyClosed <$> resp s = Some true
    ∧ resp s ≠ Some unavailable
    ∧ RoundTrip anyUrl _ scripted 2 upload [Ok created] = Done s'
    ∧ resp s' = Some created
    ∧ BodyClosed <$> resp s' = Some false.
Proof.
  eexists _, _. split; [vm_compute; reflexivity|].
  repeat split; try reflexivity; try (vm_compute; reflexivity).
  simpl. discriminate.
Qed.

(** C3, at the failing input.  A request with the body [hi], a 503 and
    then a 200: the call returns the 200 after two attempts, but the first
    attempt is sent with no body bytes and the second with [hi]. *)
Theorem retry_first_attempt_body_differs :
  ∃ (s : RoundTripState (list (result Response))) (rq1 rq2 : Request),
    RoundTrip anyUrl _ scripted 5 upload [Ok unavailable; Ok created] = Done s
    ∧ resp s = Some created
    ∧ attempts s = [(rq1, Ok unavailable); (rq2, Ok created)]
    ∧ bodyBytes rq1 = []
    ∧ bodyBytes rq2 = String.list_byte_of_string "hi"
    ∧ bodyBytes rq1 ≠ bodyBytes rq2.
Proof.
  eexists _, _, _. split; [vm_compute; reflexivity|].
  repeat split; try reflexivity. simpl. discriminate.
Qed.

(** ** The worker pipeline *)

Lemma countIf_app (p : Event → bool) (tr1 tr2 : list Event) :
  countIf p (tr1 ++ tr2) = countIf p tr1 + countIf p tr2.
Proof. induction tr1 as [|ev tr1 IH]; simpl; [done|]. rewrite IH. lia. Qed.

Lemma countIf_snoc_skip (p : Event → bool) (tr : list Event) (ev : Event) :
  p ev = false → countIf p (tr ++ [ev]) = countIf p tr.
Proof. intros H. rewrite countIf_app. simpl. rewrite H. lia. Qed.

(** Evaluation of the worker's computations, one layer at a time. *)
Ltac run :=
  unfold bind, ret, panic, logf, logPanicf, osOpen, callObjectsGet,
    callClientGet, ioutilWriteFile, CombinedOutput, callObjectsInsert,
    deferring, osRemove, fileClose, emit in *;
  cbn [ext files trace fst snd] in *.

Ltac quiet :=
  unfold toolRuns, uploads;
  rewrite ?countIf_snoc_skip by reflexivity;
  try done.

Section WorkerFacts.

Context {E : Type} (C : Collaborators E).

(** Whatever its outcome, the fetch stage touches no file, runs no
    command and uploads nothing. *)
Lemma getImageBytes_frame (bucket name : string) (w w1 : World E)
    (out : exec (list byte)) :
  getImageBytes C bucket name w = (out, w1) →
  files w1 = files w
  ∧ toolRuns (trace w1) = toolRuns (trace w)
  ∧ uploads (trace w1) = uploads (trace w).
Proof.
  unfold getImageBytes. run.
  destruct (objectsGet C (ext w) bucket name) as [[obj|e] e1]; simpl.
  - destruct (clientGet C e1 (MediaLink obj)) as [[body|e] e2]; simpl.
    + destruct (GoLib.fault body); intros [= <- <-]; simpl;
        repeat split; quiet.
    + intros [= <- <-]. simpl. repeat split; quiet.
  - intros [= <- <-]. simpl. repeat split; quiet.
Qed.

(** The fetch stage panics exactly when it fails. *)
Lemma getImageBytes_fails (bucket name : string) (w : World E) :
  fetchFails C (ext w) bucket name = true →
  ∃ msg w1, getImageBytes C bucket name w = (Panicked msg, w1).
Proof.
  unfold fetchFails, getImageBytes. run.
  destruct (objectsGet C (ext w) bucket name) as [[obj|e] e1]; simpl;
    [|by eexists _, _].
  destruct (clientGet C e1 (MediaLink obj)) as [[body|e] e2]; simpl;
    [|by eexists _, _].
  destruct (GoLib.fault body); [by eexists _, _|done].
Qed.

Lemma getImageBytes_succeeds (bucket name : string) (w : World E) :
  fetchFails C (ext w) bucket name = false →
  ∃ b w1, getImageBytes C bucket name w = (Done b, w1).
Proof.
  unfold fetchFails, getImageBytes. run.
  destruct (objectsGet C (ext w) bucket name) as [[obj|e] e1]; simpl; [|done].
  destruct (clientGet C e1 (MediaLink obj)) as [[body|e] e2]; simpl; [|done].
  destruct (GoLib.fault body); [done|by eexists _, _].
Qed.

(** The loop of the worker, one request at a time. *)
Lemma process_panics (r : processImageReq) (rest : list processImageReq)
    (w w1 : World E) (msg : string) :
  processImage C r w = (Panicked msg, w1) →
  process C (r :: rest) w = (Panicked msg, w1).
Proof. intros H. cbn [process]. unfold bind at 1. by rewrite H. Qed.

Lemma process_logs_error (r : processImageReq) (rest : list processImageReq)
    (w w1 : World E) (e : string) :
  processImage C r w = (Done (Some e), w1) →
  process C (r :: rest) w
  = process C rest
      (emit (EvLog "Processing took %fs")
         (emit (EvLog ("Could not process image " +:+ saveToFilename r
                       +:+ ": " +:+ e)) w1)).
Proof. intros H. cbn [process]. unfold bind at 1. by rewrite H. Qed.

(** C2, as the code has it.  When the fetch stage of a request fails,
    the external command is not run, no upload is attempted and no file
    is touched; the failure is a panic, and it ends the loop of the
    worker: the requests still queued are not processed. *)
Theorem fetch_failure_panics_before_transform
    (r : processImageReq) (rest : list processImageReq) (w : World E) :
  fetchFails C (ext w) (sourceBucket r) (filename r) = true →
  ∃ (msg : string) (w1 : World E),
    processImage C r w = (Panicked msg, w1)
    ∧ toolRuns (trace w1) = toolRuns (trace w)
    ∧ uploads (trace w1) = uploads (trace w)
    ∧ files w1 = files w
    ∧ process C (r :: rest) w = (Panicked msg, w1).
Proof.
  intros Hfail.
  destruct (getImageBytes_fails _ _ _ Hfail) as (msg & w1 & Hfetch).
  destruct (getImageBytes_frame _ _ _ _ _ Hfetch) as (Hf & Ht & Hu).
  assert (processImage C r w = (Panicked msg, w1)) as Hp.
  { unfold processImage. unfold bind at 1. by rewrite Hfetch. }
  exists msg, w1. repeat split; try done. by apply process_panics.
Qed.

(** C7, as the code has it.  After a fetch that succeeded, an error of
    the stage step, of the transform step or of opening the output is
    returned to the loop of the worker, which logs it and goes on with
    the requests still queued. *)
Theorem later_errors_are_logged_and_skipped
    (r : processImageReq) (rest : list processImageReq) (w w1 : World E)
    (b : list byte) (e : string) :
  getImageBytes C (sourceBucket r) (filename r) w = (Done b, w1) →
  laterFailure C r b (ext w1) (files w1) = Some e →
  ∃ w2 : World E,
    processImage C r w = (Done (Some e), w2)
    ∧ uploads (trace w2) = uploads (trace w)
    ∧ process C (r :: rest) w
      = process C rest
          (emit (EvLog "Processing took %fs")
             (emit (EvLog ("Could not process image " +:+ saveToFilename r
                           +:+ ": " +:+ e)) w2)).
Proof.
  intros Hfetch Hlater.
  destruct (getImageBytes_frame _ _ _ _ _ Hfetch) as (_ & _ & Hu).
  assert (∃ w2, processImage C r w = (Done (Some e), w2)
                ∧ uploads (trace w2) = uploads (trace w1)) as (w2 & Hp & Hu2).
  { unfold processImage. unfold bind at 1. rewrite Hfetch.
    unfold laterFailure in Hlater. run.
    destruct (diskWrite C (ext w1) (filename r) b) as [[e0|] e1]; simpl in *.
    { injection Hlater as ->. eexists. split; [done|]. simpl. quiet. }
    destruct (combinedOutput C e1 (<[filename r:=b]> (files w1))
                (moderateCommand (filename r) (saveToFilename r)))
      as [[[o [e0|]] fs'] e2]; simpl in *.
    { injection Hlater as ->. eexists. split; [done|]. simpl. quiet. }
    destruct (fs' !! saveToFilename r) as [media|]; simpl in *; [done|].
    injection Hlater as <-. eexists. split; [done|]. simpl. quiet. }
  exists w2. split; [done|]. split; [congruence|].
  by apply process_logs_error.
Qed.

(** C9.  Once the scratch input file has been written, it is removed
    by the time [processImage] is left, whatever the way out: it is not
    among the files, and removing it is the last thing done.  When the
    command fails, its error is returned and no upload is attempted. *)
Theorem staged_input_removed_on_every_exit
    (r : processImageReq) (w w1 w2 : World E) (b : list byte) (e1 : E)
    (out : exec (option string)) :
  getImageBytes C (sourceBucket r) (filename r) w = (Done b, w1) →
  diskWrite C (ext w1) (filename r) b = (None, e1) →
  processImage C r w = (out, w2) →
  files w2 !! filename r = None
  ∧ last (trace w2) = Some (EvRemove (filename r))
  ∧ ∀ o e fs' e2,
      combinedOutput C e1 (<[filename r := b]> (files w1))
        (moderateCommand (filename r) (saveToFilename r))
      = (o, Some e, fs', e2) →
      out = Done (Some e)
      ∧ files w2 = delete (filename r) fs'
      ∧ uploads (trace w2) = uploads (trace w).
Proof.
  intros Hfetch Hwrite.
  destruct (getImageBytes_frame _ _ _ _ _ Hfetch) as (_ & _ & Hu).
  unfold processImage. unfold bind at 1. rewrite Hfetch.
  unfold bind at 1. unfold logf at 1. unfold bind at 1.
  unfold ioutilWriteFile at 1. cbn [ext files trace emit]. rewrite Hwrite.
  unfold deferring at 1.
  match goal with
  | |- (let '(_, _) := ?body ?w0 in _) = _ → _ =>
      destruct (body w0) as [res w3] eqn:Hbody
  end.
  intros [= <- <-]. split; [apply lookup_delete_eq|].
  split; [apply last_snoc|].
  intros o e fs' e2 Hcmd. revert Hbody. run. rewrite Hcmd. simpl.
  intros [= <- <-]. simpl. split; [done|]. split; [done|].
  rewrite <- Hu. quiet.
Qed.

(** A failed upload call is followed by a read of the nil result: the
    worker panics, after the deferred removals. *)
Lemma upload_failure_panics (r : processImageReq) (w w1 : World E)
    (b media : list byte) (e1 e2 e3 : E) (o : list byte)
    (fs' : gmap string (list byte)) (e : string) :
  getImageBytes C (sourceBucket r) (filename r) w = (Done b, w1) →
  diskWrite C (ext w1) (filename r) b = (None, e1) →
  combinedOutput C e1 (<[filename r := b]> (files w1))
    (moderateCommand (filename r) (saveToFilename r)) = (o, None, fs', e2) →
  fs' !! saveToFilename r = Some media →
  objectsInsert C e2 (saveToBucket r) (saveToFilename r) media = (Err e, e3) →
  ∃ w2, processImage C r w
        = (Panicked "runtime error: invalid memory address or nil pointer dereference", w2).
Proof.
  intros Hfetch Hwrite Hcmd Hout Hins.
  unfold processImage. unfold bind at 1. rewrite Hfetch. run. simpl.
  rewrite Hwrite. simpl. rewrite Hcmd. simpl. rewrite Hout. simpl.
  rewrite Hins. by eexists.
Qed.

End WorkerFacts.

Lemma fetch_failure_panics_before_transform_witness :
  ∃ (msg : string) (w1 : World unit),
    processImage lab missingObject world0 = (Panicked msg, w1)
    ∧ toolRuns (trace w1) = toolRuns (trace world0)
    ∧ uploads (trace w1) = uploads (trace world0)
    ∧ files w1 = files world0
    ∧ process lab (missingObject :: [eiffel]) world0 = (Panicked msg, w1).
Proof.
  apply (fetch_failure_panics_before_transform lab missingObject [eiffel] world0).
  reflexivity.
Defined.

Lemma later_errors_are_logged_and_skipped_witness :
  ∃ w2 : World unit,
    processImage lab broken world0 = (Done (Some "exit status 1"), w2)
    ∧ uploads (trace w2) = uploads (trace world0)
    ∧ process lab (broken :: [eiffel]) world0
      = process lab [eiffel]
          (emit (EvLog "Processing took %fs")
             (emit (EvLog ("Could not process image " +:+ saveToFilename broken
                           +:+ ": " +:+ "exit status 1")) w2)).
Proof.
  eapply (later_errors_are_logged_and_skipped lab broken [eiffel] world0);
    vm_compute; reflexivity.
Defined.

Lemma staged_input_removed_on_every_exit_witness :
  files (processImage lab refused world0).2 !! filename refused = None
  ∧ last (trace (processImage lab refused world0).2)
    = Some (EvRemove (filename refused)).
Proof.
  destruct (staged_input_removed_on_every_exit lab refused world0
              (getImageBytes lab (sourceBucket refused) (filename refused)
                 world0).2
              (processImage lab refused world0).2
              (String.list_byte_of_string "JPEG") tt
              (processImage lab refused world0).1)
    as (Hgone & Hlast & _); [vm_compute; reflexivity..|].
  split; [exact Hgone|exact Hlast].
Defined.

(** C2, counterexample.  The metadata lookup of the request fails: the
    command is not run and nothing is uploaded, but the worker does not
    come back to its loop. *)
Lemma fetch_failure_ends_worker :
  fetchFails lab (ext world0) (sourceBucket missingObject)
    (filename missingObject) = true
  ∧ ¬ (toolRuns (trace (processImage lab missingObject world0).2)
         = toolRuns (trace world0)
       ∧ uploads (trace (processImage lab missingObject world0).2)
         = uploads (trace world0)
       ∧ staysAvailable lab missingObject [] world0).
Proof.
  split; [reflexivity|]. intros (_ & _ & w' & Hrun).
  vm_compute in Hrun. discriminate.
Qed.

(** C7, counterexample.  The download of the request fails: the error is
    not caught at the loop of the worker, which ends with a panic. *)
Lemma download_error_is_not_caught :
  fetchFails lab (ext world0) (sourceBucket unreachable) (filename unreachable)
  = true
  ∧ ¬ staysAvailable lab unreachable [] world0.
Proof.
  split; [reflexivity|]. intros (w' & Hrun).
  vm_compute in Hrun. discriminate.
Qed.

(* ================================================================== *)
(** * Part IV: further properties of the code                           *)
(* ================================================================== *)

(** ** Strings, continued *)

Section MoreStringFacts.

Import GoLib.
Local Arguments Ascii.eqb : simpl never.

Lemma str_app_inv_tail (a b c : string) : a +:+ c = b +:+ c → a = b.
Proof.
  intros H.
  assert (String.length a = String.length b) as Hlen.
  { apply (f_equal String.length) in H. rewrite !str_length_app in H. lia. }
  revert b H Hlen. induction a as [|x a IH]; intros [|y b] H Hlen;
    simpl in Hlen; try done.
  rewrite !str_app_cons in H. injection H as -> H. f_equal. apply IH; [done|lia].
Qed.

(** A string that holds the byte [c] splits at its last occurrence. *)
Lemma containsByte_last (c : ascii) (s : string) :
  containsByte c s = true →
  ∃ a b, s = a +:+ String c b ∧ containsByte c b = false.
Proof.
  induction s as [|x s IH]; intros H; simpl in H; [done|].
  destruct (containsByte c s) eqn:Hs.
  - destruct (IH eq_refl) as (a & b & -> & Hb). by exists (String x a), b.
  - destruct (Ascii.eqb x c) eqn:Hx; [|done].
    apply Ascii.eqb_eq in Hx as ->. by exists EmptyString, s.
Qed.

(** A string that holds the byte [c] splits at its first occurrence. *)
Lemma split_at_first (c : ascii) (a b n m : string) :
  containsByte c a = false → containsByte c b = false →
  a +:+ String c n = b +:+ String c m → a = b ∧ n = m.
Proof.
  revert b. induction a as [|x a IH]; intros [|y b] Ha Hb H; simpl in *.
  - by injection H as ->.
  - rewrite str_app_cons in H. injection H as <- _.
    by rewrite Ascii.eqb_refl in Hb.
  - rewrite str_app_cons in H. injection H as -> _.
    by rewrite Ascii.eqb_refl in Ha.
  - rewrite !str_app_cons in H. injection H as -> H.
    destruct (Ascii.eqb y c); [done|].
    destruct (IH b Ha Hb H) as [-> ->]. done.
Qed.

(** [filepath.Ext] of a name without a slash: the name is a base followed
    by the extension, which is empty when the name has no dot and
    otherwise starts at the last dot. *)
Lemma Ext_split (f : string) :
  containsByte "/" f = false →
  ∃ base,
    f = base +:+ Ext f
    ∧ sliceTo (String.length f - String.length (Ext f)) f = base
    ∧ ((Ext f = EmptyString ∧ containsByte "." f = false)
       ∨ ∃ e, Ext f = "." +:+ e ∧ containsByte "." e = false
              ∧ containsByte "/" e = false).
Proof.
  intros Hs. destruct (containsByte "." f) eqn:Hd.
  - destruct (containsByte_last _ _ Hd) as (a & b & -> & Hb).
    assert (containsByte "/" b = false) as Hsb.
    { rewrite containsByte_app in Hs. apply orb_false_elim in Hs as [_ Hs].
      simpl in Hs. by destruct (Ascii.eqb "." "/"). }
    change (a +:+ String "." b) with (a +:+ "." +:+ b).
    rewrite Ext_last_dot by done. exists a. split; [done|]. split.
    + rewrite !str_length_app.
      replace (String.length a + (String.length "." + String.length b)
               - (String.length "." + String.length b))
        with (String.length a) by lia.
      apply sliceTo_app.
    + right. by exists b.
  - rewrite Ext_no_dot by done. exists f. rewrite str_app_empty_r.
    split; [done|]. split; [|by left].
    simpl. rewrite Nat.sub_0_r. apply sliceTo_all.
Qed.

Lemma TrimRight_app_cut (s : string) :
  TrimRight (s +:+ "/") "/" = TrimRight s "/".
Proof.
  induction s as [|x s IH]; [done|]. rewrite str_app_cons. simpl. by rewrite IH.
Qed.

Lemma TrimRight_slash_free (s : string) :
  containsByte "/" s = false → TrimRight s "/" = s.
Proof.
  induction s as [|x s IH]; intros H; simpl in *; [done|].
  destruct (Ascii.eqb x "/") eqn:Hx; [done|]. rewrite IH by done.
  destruct s; [|done]. rewrite Ascii.eqb_sym in Hx. by rewrite Hx.
Qed.

Lemma TrimRight_app_kept (a b : string) :
  TrimRight b "/" ≠ EmptyString →
  TrimRight (a +:+ b) "/" = a +:+ TrimRight b "/".
Proof.
  intros Hb. induction a as [|x a IH]; [done|].
  rewrite !str_app_cons. simpl. rewrite IH.
  destruct (a +:+ TrimRight b "/") eqn:Hab; [|done].
  destruct a; [|done]. simpl in Hab. done.
Qed.

Lemma TrimLeft_kept (x : ascii) (s : string) :
  x ≠ "/"%char → TrimLeft (String x s) "/" = String x s.
Proof.
  intros Hx. simpl. apply Ascii.eqb_neq in Hx.
  rewrite Ascii.eqb_sym in Hx. by rewrite Hx.
Qed.

(** [strings.Trim] of a directory part [s/] whose [s] has no slash. *)
Lemma Trim_dir_slash_free (s : string) :
  containsByte "/" s = false → Trim (s +:+ "/") "/" = s.
Proof.
  intros Hs. unfold Trim. destruct s as [|x s]; [done|].
  rewrite str_app_cons, TrimLeft_kept.
  - rewrite <- str_app_cons, TrimRight_app_cut. by apply TrimRight_slash_free.
  - simpl in Hs. destruct (Ascii.eqb x "/") eqn:Hx; [done|].
    by apply Ascii.eqb_neq.
Qed.

(** [strings.Trim] of a directory part [a/d/] whose [a] and [d] are not
    empty and have no slash. *)
Lemma Trim_dir_nested (a d : string) :
  a ≠ EmptyString → d ≠ EmptyString →
  containsByte "/" a = false → containsByte "/" d = false →
  Trim ((a +:+ "/" +:+ d) +:+ "/") "/" = a +:+ "/" +:+ d.
Proof.
  intros Ha Hd Hsa Hsd. unfold Trim. destruct a as [|x a]; [done|].
  rewrite !str_app_cons, TrimLeft_kept.
  - rewrite <- !str_app_cons, TrimRight_app_cut.
    assert (TrimRight ("/" +:+ d) "/" = "/" +:+ d) as Hkept.
    { rewrite TrimRight_app_kept; by rewrite TrimRight_slash_free. }
    rewrite TrimRight_app_kept; rewrite Hkept; [done|]. by destruct d.
  - simpl in Hsa. destruct (Ascii.eqb x "/") eqn:Hx; [done|].
    by apply Ascii.eqb_neq.
Qed.

End MoreStringFacts.

(** ** Admission, continued *)

Section MoreAdmissionFacts.

Import GoLib.
Local Arguments Ascii.eqb : simpl never.

Lemma getProcessImageReq_bucket_object
    (r : FormRequest) (bucket name : string) :
  FormValue r "id" = bucket +:+ "/" +:+ name →
  containsByte "/" bucket = false →
  containsByte "/" name = false →
  ∃ req : processImageReq,
    getProcessImageReq r = Ok req
    ∧ sourceBucket req = bucket
    ∧ filename req = name
    ∧ saveToBucket req = FormValue r "save-to".
Proof.
  intros Hid Hb Hn.
  assert (FormValue r "id" ≠ EmptyString) as Hne.
  { rewrite Hid. by destruct bucket. }
  eexists. split; [by apply getProcessImageReq_with_id|].
  rewrite Hid, Split_at_last_slash by done. simpl.
  by rewrite Trim_dir_slash_free.
Qed.

(** X1.  The identifier [bucket/name], with no slash in either part, is
    parsed back into that bucket and that object name, and the
    destination bucket is the [save-to] field. *)
Theorem parses_bucket_and_object (r : FormRequest) (bucket name : string) :
  FormValue r "id" = bucket +:+ "/" +:+ name →
  containsByte "/" bucket = false →
  containsByte "/" name = false →
  ∃ req : processImageReq,
    getProcessImageReq r = Ok req
    ∧ sourceBucket req = bucket
    ∧ filename req = name
    ∧ saveToBucket req = FormValue r "save-to".
Proof.
  intros Hid Hb Hn.
  assert (FormValue r "id" ≠ EmptyString) as Hne.
  { rewrite Hid. by destruct bucket. }
  eexists. split; [by apply getProcessImageReq_with_id|].
  rewrite Hid, Split_at_last_slash by done. simpl.
  by rewrite Trim_dir_slash_free.
Qed.

Lemma parses_bucket_and_object_witness :
  ∃ req : processImageReq,
    getProcessImageReq (formRequest "bucket/eiffel.jpg" "thumbs") = Ok req
    ∧ sourceBucket req = "bucket"
    ∧ filename req = "eiffel.jpg"
    ∧ saveToBucket req = FormValue (formRequest "bucket/eiffel.jpg" "thumbs")
                           "save-to".
Proof.
  apply (parses_bucket_and_object (formRequest "bucket/eiffel.jpg" "thumbs")
           "bucket" "eiffel.jpg"); vm_compute; reflexivity.
Defined.

(** X2.  An identifier with a folder, [bucket/dir/name], is cut at its
    last slash: the source bucket of the request is [bucket/dir], not
    [bucket], and the object name is [name] alone. *)
Theorem folder_becomes_part_of_bucket
    (r : FormRequest) (bucket dir name : string) :
  FormValue r "id" = bucket +:+ "/" +:+ dir +:+ "/" +:+ name →
  bucket ≠ EmptyString → dir ≠ EmptyString →
  containsByte "/" bucket = false →
  containsByte "/" dir = false →
  containsByte "/" name = false →
  ∃ req : processImageReq,
    getProcessImageReq r = Ok req
    ∧ sourceBucket req = bucket +:+ "/" +:+ dir
    ∧ sourceBucket req ≠ bucket
    ∧ filename req = name.
Proof.
  intros Hid Hb Hd Hsb Hsd Hn.
  assert (FormValue r "id" ≠ EmptyString) as Hne.
  { rewrite Hid. by destruct bucket. }
  eexists. split; [by apply getProcessImageReq_with_id|].
  replace (FormValue r "id") with ((bucket +:+ "/" +:+ dir) +:+ "/" +:+ name)
    by by rewrite Hid, !str_app_assoc.
  rewrite Split_at_last_slash by done. simpl.
  rewrite Trim_dir_nested by done. split; [done|]. split; [|done].
  intros H. apply (f_equal String.length) in H.
  rewrite !str_length_app in H. simpl in H. lia.
Qed.

Lemma folder_becomes_part_of_bucket_witness :
  ∃ req : processImageReq,
    getProcessImageReq (formRequest "bucket/paris/eiffel.jpg" "thumbs") = Ok req
    ∧ sourceBucket req = "bucket" +:+ "/" +:+ "paris"
    ∧ sourceBucket req ≠ "bucket"
    ∧ filename req = "eiffel.jpg".
Proof.
  apply (folder_becomes_part_of_bucket
           (formRequest "bucket/paris/eiffel.jpg" "thumbs")
           "bucket" "paris" "eiffel.jpg");
    first [vm_compute; reflexivity | discriminate].
Defined.

Lemma accepted_name_shape (r : FormRequest) (req : processImageReq) :
  getProcessImageReq r = Ok req →
  containsByte "/" (filename req) = false
  ∧ ∃ base,
      filename req = base +:+ Ext (filename req)
      ∧ saveToFilename req = base +:+ ThumbnailSuffix +:+ Ext (filename req)
      ∧ ((Ext (filename req) = EmptyString
          ∧ containsByte "." (filename req) = false)
         ∨ ∃ e, Ext (filename req) = "." +:+ e ∧ containsByte "." e = false
                ∧ containsByte "/" e = false).
Proof.
  intros Hreq.
  destruct (getProcessImageReq_Ok_inv r req Hreq) as (_ & Hfile & Hsave).
  assert (containsByte "/" (filename req) = false) as Hns.
  { rewrite Hfile. apply Split_file_no_slash. }
  split; [done|].
  destruct (Ext_split _ Hns) as (base & Hf & Hcut & Hext).
  exists base. rewrite Hsave, Hcut. done.
Qed.

Lemma derived_name_keeps_ext (r : FormRequest) (req : processImageReq) :
  getProcessImageReq r = Ok req →
  Ext (saveToFilename req) = Ext (filename req).
Proof.
  intros Hreq.
  destruct (accepted_name_shape r req Hreq) as (Hns & base & Hf & Hsave & Hext).
  destruct Hext as [[He Hd]|(e & He & Hd & Hs)].
  - rewrite Hsave, He, str_app_empty_r.
    apply Ext_no_dot. rewrite Hf, He, str_app_empty_r in Hd.
    by rewrite containsByte_app, Hd.
  - rewrite Hsave, He.
    replace (base +:+ ThumbnailSuffix +:+ "." +:+ e)
      with ((base +:+ ThumbnailSuffix) +:+ "." +:+ e)
      by by rewrite str_app_assoc.
    by apply Ext_last_dot.
Qed.

(** X3.  The destination object name of an accepted request has no
    slash, keeps the extension of the object name, is two bytes longer
    than the object name, and differs from it: the two scratch files of a
    request are never the same file. *)
Theorem derived_name_facts (r : FormRequest) (req : processImageReq) :
  getProcessImageReq r = Ok req →
  containsByte "/" (filename req) = false
  ∧ containsByte "/" (saveToFilename req) = false
  ∧ Ext (saveToFilename req) = Ext (filename req)
  ∧ String.length (saveToFilename req) = String.length (filename req) + 2
  ∧ saveToFilename req ≠ filename req.
Proof.
  intros Hreq.
  destruct (accepted_name_shape r req Hreq) as (Hns & base & Hf & Hsave & Hext).
  assert (String.length (saveToFilename req)
          = String.length (filename req) + 2) as Hlen.
  { rewrite Hsave. rewrite Hf at 2. rewrite !str_length_app. simpl. lia. }
  split; [done|]. split; [|split; [|split; [done|]]].
  - rewrite Hf, containsByte_app in Hns.
    apply orb_false_elim in Hns as [Hb He].
    rewrite Hsave, !containsByte_app, Hb, He. done.
  - by eapply derived_name_keeps_ext.
  - intros Heq. rewrite Heq in Hlen. lia.
Qed.

Lemma derived_name_facts_witness :
  containsByte "/" (filename eiffelAdmitted) = false
  ∧ containsByte "/" (saveToFilename eiffelAdmitted) = false
  ∧ Ext (saveToFilename eiffelAdmitted) = Ext (filename eiffelAdmitted)
  ∧ String.length (saveToFilename eiffelAdmitted)
    = String.length (filename eiffelAdmitted) + 2
  ∧ saveToFilename eiffelAdmitted ≠ filename eiffelAdmitted.
Proof.
  apply (derived_name_facts (formRequest "bucket/eiffel.jpg" "thumbs")).
  vm_compute. reflexivity.
Defined.

(** X4.  Two accepted requests with the same destination object name
    have the same object name: deriving the destination name loses
    nothing. *)
Theorem derived_name_injective
    (r1 r2 : FormRequest) (q1 q2 : processImageReq) :
  getProcessImageReq r1 = Ok q1 →
  getProcessImageReq r2 = Ok q2 →
  saveToFilename q1 = saveToFilename q2 →
  filename q1 = filename q2.
Proof.
  intros H1 H2 Heq.
  pose proof (derived_name_keeps_ext r1 q1 H1) as He1.
  pose proof (derived_name_keeps_ext r2 q2 H2) as He2.
  destruct (accepted_name_shape r1 q1 H1) as (_ & b1 & Hf1 & Hs1 & _).
  destruct (accepted_name_shape r2 q2 H2) as (_ & b2 & Hf2 & Hs2 & _).
  assert (Ext (filename q1) = Ext (filename q2)) as He by congruence.
  rewrite Hs1, Hs2, He in Heq.
  rewrite <- !str_app_assoc in Heq. apply str_app_inv_tail in Heq.
  apply str_app_inv_tail in Heq. rewrite Hf1, Hf2, He. by rewrite Heq.
Qed.

Lemma derived_name_injective_witness :
  filename eiffelAdmitted
  = filename {| sourceBucket := "other"; filename := "eiffel.jpg";
                saveToBucket := "thumbs"; saveToFilename := "eiffel-t.jpg" |}.
Proof.
  apply (derived_name_injective (formRequest "bucket/eiffel.jpg" "thumbs")
           (formRequest "other/eiffel.jpg" "thumbs"));
    vm_compute; reflexivity.
Defined.

(** The four outcomes of the handler. *)
Lemma ServeHTTP_cases (hostname : string) (c : Chan) (r : FormRequest) :
  (ServeHTTP hostname c newWriter r).1 = c
  ∧ status (ServeHTTP hostname c newWriter r).2 = 500%Z
  ∧ FormValue r "id" = EmptyString
  ∨ (ServeHTTP hostname c newWriter r).1 = c
    ∧ status (ServeHTTP hostname c newWriter r).2 = 503%Z
    ∧ FormValue r "id" ≠ EmptyString
    ∧ capacity c ≤ length (buf c)
    ∧ (0 < capacity c ∨ ready c = 0)
  ∨ (∃ req,
      (ServeHTTP hostname c newWriter r).1
      = {| buf := buf c ++ [req]; capacity := capacity c;
           ready := ready c; handed := handed c |}
      ∧ status (ServeHTTP hostname c newWriter r).2 = 200%Z
      ∧ FormValue r "id" ≠ EmptyString
      ∧ length (buf c) < capacity c)
  ∨ ∃ req,
      (ServeHTTP hostname c newWriter r).1
      = {| buf := buf c; capacity := capacity c;
           ready := ready c - 1; handed := handed c ++ [req] |}
      ∧ status (ServeHTTP hostname c newWriter r).2 = 200%Z
      ∧ FormValue r "id" ≠ EmptyString
      ∧ capacity c = 0 ∧ 0 < ready c.
Proof.
  unfold ServeHTTP.
  destruct (decide (FormValue r "id" = EmptyString)) as [He|Hne].
  - rewrite getProcessImageReq_missing_id by done. by left.
  - rewrite getProcessImageReq_with_id by done. cbv zeta.
    unfold trySend. case_decide; [|case_decide].
    + right. right. left. by eexists.
    + right. right. right. eexists. repeat split; try done; lia.
    + right. left. repeat split; try done; lia.
Qed.

(** X5.  Whatever requests are served, and whether or not workers wait
    to receive, the queue never holds more than its capacity, its
    capacity does not change, what it held stays at its head in the same
    order, every status is 200, 500 or 503, and each 200 puts exactly
    one request into the queue or, on a channel without a buffer, into
    the hands of a waiting worker.  On a buffered queue, and when no
    worker waits, nothing is handed over and the queue grows by one for
    each 200. *)
Theorem queue_stays_within_capacity
    (hostname : string) (c : Chan) (rs : list FormRequest) :
  length (buf c) ≤ capacity c →
  length (buf (serveEach hostname c rs).1) ≤ capacity c
  ∧ capacity (serveEach hostname c rs).1 = capacity c
  ∧ buf c `prefix_of` buf (serveEach hostname c rs).1
  ∧ handed c `prefix_of` handed (serveEach hostname c rs).1
  ∧ length (serveEach hostname c rs).2 = length rs
  ∧ Forall (λ s, s ∈ [200; 500; 503]%Z) (serveEach hostname c rs).2
  ∧ length (buf (serveEach hostname c rs).1)
    + length (handed (serveEach hostname c rs).1)
    = length (buf c) + length (handed c)
      + length (filter (λ s, s = 200%Z) (serveEach hostname c rs).2)
  ∧ (0 < capacity c ∨ ready c = 0 →
     handed (serveEach hostname c rs).1 = handed c
     ∧ length (buf (serveEach hostname c rs).1)
       = length (buf c)
         + length (filter (λ s, s = 200%Z) (serveEach hostname c rs).2)).
Proof.
  revert c. induction rs as [|r rs IH]; intros c Hc; simpl.
  { repeat split; try done; lia. }
  destruct (ServeHTTP hostname c newWriter r) as [c1 w] eqn:Hs.
  destruct (serveEach hostname c1 rs) as [c2 sts] eqn:Hall. simpl.
  pose proof (ServeHTTP_cases hostname c r) as Hcases. rewrite Hs in Hcases.
  simpl in Hcases.
  assert (length (buf c1) ≤ capacity c1 ∧ capacity c1 = capacity c
          ∧ buf c `prefix_of` buf c1
          ∧ handed c `prefix_of` handed c1
          ∧ status w ∈ [200; 500; 503]%Z
          ∧ length (buf c1) + length (handed c1)
            = length (buf c) + length (handed c)
              + length (filter (λ s, s = 200%Z) [status w])
          ∧ (0 < capacity c ∨ ready c = 0 →
             (0 < capacity c1 ∨ ready c1 = 0)
             ∧ handed c1 = handed c
             ∧ length (buf c1)
               = length (buf c)
                 + length (filter (λ s, s = 200%Z) [status w])))
    as (Hc1 & Hcap & Hpre & Hpre' & Hst & Hlen & Hquiet).
  { destruct Hcases
      as [(-> & -> & _)|[(-> & -> & _)
         |[(req & -> & -> & _ & ?)|(req & -> & -> & _ & ? & ?)]]];
      simpl.
    - repeat split; try done; try lia. by repeat constructor.
    - repeat split; try done; try lia. by repeat constructor.
    - rewrite length_app. simpl.
      repeat split; try done; try lia; [|by repeat constructor].
      by apply prefix_app_r.
    - rewrite length_app. simpl.
      repeat split; try done; try lia.
      + by apply prefix_app_r.
      + by repeat constructor. }
  specialize (IH c1 Hc1). rewrite Hall in IH. simpl in IH.
  destruct IH as (H1 & H2 & H3 & H3' & H4 & H5 & H6 & H7).
  assert (length (filter (λ s, s = 200%Z) (status w :: sts))
          = length (filter (λ s, s = 200%Z) [status w])
            + length (filter (λ s, s = 200%Z) sts)) as Hcount.
  { change (status w :: sts) with ([status w] ++ sts).
    by rewrite filter_app, length_app. }
  split; [lia|]. split; [congruence|]. split; [by etrans|].
  split; [by etrans|]. split; [simpl; lia|]. split; [by constructor|].
  split; [lia|].
  intros Hbuffered. destruct (Hquiet Hbuffered) as (Hq & Hh & Hb).
  destruct (H7 Hq) as [-> ->]. split; [done|lia].
Qed.

Lemma queue_stays_within_capacity_witness :
  length (buf (serveEach "host-1" (parked 2 fullChan)
                 [formRequest "b/x.png" "t"; formRequest "b/y.png" "t"]).1) ≤ 1
  ∧ (serveEach "host-1" (parked 2 fullChan)
       [formRequest "b/x.png" "t"; formRequest "b/y.png" "t"]).2
    = [503; 503]%Z
  ∧ length (buf (serveEach "host-1" (makeChan 1)
                   [formRequest "b/x.png" "t"; formRequest "b/y.png" "t"]).1)
    = 0 + 1.
Proof.
  split; [|split].
  - apply (queue_stays_within_capacity "host-1" (parked 2 fullChan)
             [formRequest "b/x.png" "t"; formRequest "b/y.png" "t"]).
    simpl. lia.
  - vm_compute. reflexivity.
  - destruct (queue_stays_within_capacity "host-1" (makeChan 1)
                [formRequest "b/x.png" "t"; formRequest "b/y.png" "t"])
      as (_ & _ & _ & _ & _ & _ & _ & Hgrow); [simpl; lia|].
    destruct Hgrow as [_ Hlen]; [left; simpl; lia|]. exact Hlen.
Defined.

(** Without a waiting worker, requests that all carry an identifier
    are answered 200 as long as there are free slots, then 503. *)
Lemma serveEach_quiet
    (hostname : string) (c : Chan) (rs : list FormRequest) :
  ready c = 0 →
  Forall (λ r, FormValue r "id" ≠ EmptyString) rs →
  (serveEach hostname c rs).2
  = replicate (min (freeSlots c) (length rs)) 200%Z
    ++ replicate (length rs - freeSlots c) 503%Z
  ∧ length (buf (serveEach hostname c rs).1)
    = length (buf c) + min (freeSlots c) (length rs).
Proof.
  revert c. induction rs as [|r rs IH]; intros c Hquiet Hrs; simpl.
  { rewrite Nat.min_0_r. simpl. split; [done|lia]. }
  apply Forall_cons in Hrs as [Hr Hrs].
  destruct (ServeHTTP hostname c newWriter r) as [c1 w] eqn:Hs.
  destruct (serveEach hostname c1 rs) as [c2 sts] eqn:Hall. simpl.
  pose proof (ServeHTTP_cases hostname c r) as Hcases. rewrite Hs in Hcases.
  simpl in Hcases.
  assert (ready c1 = 0) as Hquiet1.
  { destruct Hcases
      as [(-> & _)|[(-> & _)|[(req & -> & _)|(req & _ & _ & _ & _ & ?)]]];
      simpl; try done; lia. }
  specialize (IH c1 Hquiet1 Hrs). rewrite Hall in IH. simpl in IH.
  destruct IH as [-> ->]. unfold freeSlots in *.
  destruct Hcases
    as [(_ & _ & ?)|[(-> & -> & _ & Hfull & _)
       |[(req & -> & -> & _ & Hroom)|(req & _ & _ & _ & _ & ?)]]];
    [done| | |lia]; simpl.
  - replace (capacity c - length (buf c)) with 0 by lia. simpl.
    rewrite Nat.sub_0_r. split; [done|lia].
  - rewrite length_app. simpl.
    replace (capacity c - length (buf c))
      with (S (capacity c - (length (buf c) + 1))) by lia.
    simpl. split; [done|lia].
Qed.

(** X6.  When requests that all carry an identifier are served and no
    worker takes anything from the queue, the first ones, as many as
    there are free slots, are answered 200 and all the others 503. *)
Theorem free_slots_then_rejections
    (hostname : string) (c : Chan) (rs : list FormRequest) :
  Forall (λ r, FormValue r "id" ≠ EmptyString) rs →
  (serveAll hostname c rs).2
  = replicate (min (freeSlots c) (length rs)) 200%Z
    ++ replicate (length rs - freeSlots c) 503%Z
  ∧ length (buf (serveAll hostname c rs).1)
    = length (buf c) + min (freeSlots c) (length rs).
Proof.
  intros Hrs. unfold serveAll.
  change (freeSlots c) with (freeSlots (parked 0 c)).
  change (length (buf c)) with (length (buf (parked 0 c))).
  by apply serveEach_quiet.
Qed.

Lemma free_slots_then_rejections_witness :
  (serveAll "host-1" (makeChan 1)
     [formRequest "b/x.png" "t"; formRequest "b/y.png" "t"]).2
  = replicate (min (freeSlots (makeChan 1)) 2) 200%Z
    ++ replicate (2 - freeSlots (makeChan 1)) 503%Z.
Proof.
  apply (free_slots_then_rejections "host-1" (makeChan 1)
           [formRequest "b/x.png" "t"; formRequest "b/y.png" "t"]).
  repeat constructor; vm_compute; discriminate.
Defined.

End MoreAdmissionFacts.

(** ** The retrying transport, continued *)

Lemma outcome_cons (r0 : option Response) (e0 : option string)
    (x : Request * result Response) (l : list (Request * result Response)) :
  outcome r0 e0 (x :: l) = outcome (outcome r0 e0 [x]).1 (outcome r0 e0 [x]).2 l.
Proof.
  destruct l as [|y l]; [by destruct x as [? [?|?]]|].
  unfold outcome. change (last (x :: y :: l)) with (last (y :: l)).
  destruct (last (y :: l)) as [[? [?|?]]|] eqn:Hlast; [done|done|].
  by apply last_None in Hlast.
Qed.

Section MoreRetryFacts.

Context (urlParses : string → bool) {T : Type}
        (inner : T → Request → result Response * T).

(** What a run of the loop leaves, whether or not the URL parses: the
    attempts it added, at most as many as iterations were left; the
    results of the last of them; and the state of the wrapped transport
    after exactly these calls. *)
Lemma tries_log (n : nat) (i : Z) (req : Request) (body : list byte)
    (s s' : RoundTripState T) :
  tries urlParses T inner n i req body s = Done s' →
  ∃ log : list (Request * result Response),
    attempts s' = attempts s ++ log
    ∧ length log ≤ n
    ∧ (resp s', err s') = outcome (resp s) (err s) log
    ∧ exchange inner (net s) log.*1 = (log.*2, net s').
Proof.
  revert i req s. induction n as [|n IH]; intros i req s Hrun.
  { injection Hrun as <-. exists []. by rewrite app_nil_r. }
  cbn [tries] in Hrun.
  destruct (if decide (i ≠ 0%Z) then copyRequest urlParses req body
            else Done req) as [req'|msg]; [|done].
  destruct (inner (net s) req') as [a st'] eqn:Hin.
  destruct a as [r|e].
  - destruct (retryable (StatusCode r)) eqn:Hr.
    + apply IH in Hrun as (log & Hatt & Hlen & Hout & Hex). simpl in *.
      exists ((req', Ok r) :: log). rewrite Hatt, <- app_assoc.
      split; [done|]. split; [simpl; lia|]. split.
      * rewrite outcome_cons. unfold outcome at 2 3. simpl. by rewrite Hr.
      * rewrite !fmap_cons. cbn [exchange fst snd]. by rewrite Hin, Hex.
    + injection Hrun as <-. exists [(req', Ok r)]. simpl.
      split; [done|]. split; [lia|]. split.
      * unfold outcome. simpl. by rewrite Hr.
      * by rewrite Hin.
  - apply IH in Hrun as (log & Hatt & Hlen & Hout & Hex). simpl in *.
    exists ((req', Err e) :: log). rewrite Hatt, <- app_assoc.
    split; [done|]. split; [simpl; lia|]. split.
    + by rewrite outcome_cons.
    + rewrite !fmap_cons. cbn [exchange fst snd]. by rewrite Hin, Hex.
Qed.

Lemma RoundTrip_log (maxTries : Z) (req : Request) (st : T)
    (s : RoundTripState T) :
  RoundTrip urlParses T inner maxTries req st = Done s →
  (∃ rd e, Body req = Some rd ∧ GoLib.fault rd = Some e
           ∧ s = mkRT None (Some e) st [])
  ∨ (readable req
     ∧ length (attempts s) ≤ Z.to_nat maxTries
     ∧ (resp s, err s) = outcome None None (attempts s)
     ∧ exchange inner st (attempts s).*1 = ((attempts s).*2, net s)).
Proof.
  unfold RoundTrip. intros Hrun.
  destruct (Body req) as [rd|] eqn:Hbody.
  - simpl in Hrun. destruct (GoLib.fault rd) as [e|] eqn:Hfault.
    + left. injection Hrun as <-. by exists rd, e.
    + right. apply tries_log in Hrun as (log & Hatt & Hlen & Hout & Hex).
      simpl in *. subst log. split; [|done].
      intros rd' Hrd'. rewrite Hbody in Hrd'. by injection Hrd' as <-.
  - right. apply tries_log in Hrun as (log & Hatt & Hlen & Hout & Hex).
    simpl in *. subst log. split; [|done].
    intros rd' Hrd'. by rewrite Hbody in Hrd'.
Qed.

(** X7.  A call that returns has made at most [maxTries] attempts, and
    the wrapped transport has been called exactly once for each of them,
    in order: the answers recorded are its answers, and its state at the
    end is its state after these calls. *)
Theorem attempts_are_the_calls_made
    (maxTries : Z) (req : Request) (st : T) (s : RoundTripState T) :
  RoundTrip urlParses T inner maxTries req st = Done s →
  length (attempts s) ≤ Z.to_nat maxTries
  ∧ exchange inner st (attempts s).*1 = ((attempts s).*2, net s).
Proof.
  intros Hrun.
  destruct (RoundTrip_log _ _ _ _ Hrun)
    as [(rd & e & _ & _ & ->)|(_ & Hlen & _ & Hex)]; [|done].
  simpl. split; [lia|done].
Qed.

(** X8.  A call never returns both a response and an error.  A response
    it returns is the one of the last attempt; it has a status outside
    the retryable set, or its body has been closed.  An error it returns
    is the one of the last attempt, or the error of reading the body of
    the request, and then no attempt was made. *)
Theorem returned_values_come_from_last_attempt
    (maxTries : Z) (req : Request) (st : T) (s : RoundTripState T) :
  RoundTrip urlParses T inner maxTries req st = Done s →
  (resp s = None ∨ err s = None)
  ∧ (∀ r, resp s = Some r →
       ∃ rq r0, last (attempts s) = Some (rq, Ok r0)
                ∧ (retryable (StatusCode r0) = false ∧ r = r0
                   ∨ retryable (StatusCode r0) = true ∧ r = closeBody r0))
  ∧ (∀ r, resp s = Some r → BodyClosed r = false →
          retryable (StatusCode r) = false)
  ∧ (∀ e, err s = Some e →
       attempts s = [] ∧ ¬ readable req
       ∨ ∃ rq, last (attempts s) = Some (rq, Err e)).
Proof.
  intros Hrun.
  destruct (RoundTrip_log _ _ _ _ Hrun)
    as [(rd & e & Hbody & Hfault & ->)|(Hread & _ & Hout & _)]; simpl.
  - repeat split; [by left|done|done|].
    intros e' [= <-]. left. split; [done|].
    intros Hr. specialize (Hr rd Hbody). congruence.
  - unfold outcome in Hout.
    destruct (last (attempts s)) as [[rq [r0|e0]]|];
      injection Hout as Hresp Herr; rewrite Hresp, Herr.
    + split; [by right|]. split; [|split; [|done]].
      * intros r [= <-]. exists rq, r0. split; [done|].
        destruct (retryable (StatusCode r0)); [by right|by left].
      * intros r [= <-]. by destruct (retryable (StatusCode r0)) eqn:Hr0.
    + split; [by left|]. split; [done|]. split; [done|].
      intros e [= <-]. right. by exists rq.
    + by repeat split; [left|..].
Qed.

(** X9.  With no try allowed ([maxTries] at most 0) the call asks the
    wrapped transport nothing, and returns neither a response nor an
    error. *)
Theorem no_tries_no_result (maxTries : Z) (req : Request) (st : T) :
  (maxTries ≤ 0)%Z →
  readable req →
  RoundTrip urlParses T inner maxTries req st = Done (mkRT None None st []).
Proof.
  intros Hmax Hread. unfold RoundTrip.
  replace (Z.to_nat maxTries) with 0 by lia.
  destruct (Body req) as [rd|] eqn:Hbody; [|done].
  simpl. by rewrite (Hread rd).
Qed.

(** X10.  When the body of the request cannot be read to its end, the
    call returns the read error and asks the wrapped transport nothing. *)
Theorem unreadable_body_is_not_sent
    (maxTries : Z) (req : Request) (st : T) (rd : GoLib.Reader) (e : string) :
  Body req = Some rd →
  GoLib.fault rd = Some e →
  RoundTrip urlParses T inner maxTries req st = Done (mkRT None (Some e) st []).
Proof.
  intros Hbody Hfault. unfold RoundTrip. rewrite Hbody. simpl.
  by rewrite Hfault.
Qed.

(** X11.  When every answer of the wrapped transport is an error, the
    call makes exactly [maxTries] attempts and returns the last error,
    with no response. *)
Theorem transport_errors_are_retried
    (maxTries : Z) (req : Request) (st : T) :
  urlParses (URL req) = true →
  readable req →
  (0 < maxTries)%Z →
  Forall (λ x, errorAnswer x.2 = true) (schedule T inner maxTries req st) →
  ∃ (s : RoundTripState T) (rq : Request) (e : string),
    RoundTrip urlParses T inner maxTries req st = Done s
    ∧ length (attempts s) = Z.to_nat maxTries
    ∧ last (attempts s) = Some (rq, Err e)
    ∧ resp s = None
    ∧ err s = Some e.
Proof.
  intros Hurl Hread Hpos Hall.
  destruct (RoundTrip_cutoff urlParses inner maxTries req st Hurl Hread)
    as (s & Hrun & Hatt & Hout).
  rewrite cutoff_all in Hatt, Hout.
  2,3: eapply Forall_impl; [exact Hall|]; by intros [? [?|?]].
  assert (length (attempts s) = Z.to_nat maxTries) as Hlen.
  { rewrite Hatt. unfold schedule. by rewrite play_length. }
  rewrite <- Hatt in Hout. unfold outcome in Hout.
  destruct (last (attempts s)) as [[rq [r|e]]|] eqn:Hlast.
  - rewrite Forall_forall in Hall. rewrite Hatt in Hlast.
    apply last_Some_elem_of in Hlast. by specialize (Hall _ Hlast).
  - injection Hout as Hr He. by exists s, rq, e.
  - apply last_None in Hlast. rewrite Hlast in Hlen. simpl in Hlen. lia.
Qed.

(** X12.  [copyRequest] panics exactly when the URL of the request does
    not parse.  Otherwise the copy has the method, the URL and the header
    of the request, key by key and value by value, and its body is the
    one given. *)
Theorem copyRequest_mirrors (req : Request) (body : list byte) :
  (urlParses (URL req) = false →
     ∃ msg, copyRequest urlParses req body = Panicked msg)
  ∧ (urlParses (URL req) = true →
     ∃ nreq, copyRequest urlParses req body = Done nreq
             ∧ Method nreq = Method req ∧ URL nreq = URL req
             ∧ Header nreq = Header req
             ∧ Body nreq = Some (GoLib.NewReader body)).
Proof.
  split; intros Hurl.
  - unfold copyRequest, NewRequest. rewrite Hurl. by eexists.
  - exists (mirror req body). rewrite copyRequest_parses by done.
    by rewrite mirror_Header.
Qed.

End MoreRetryFacts.

Lemma attempts_are_the_calls_made_witness :
  length (attempts (mkRT (Some created) None ([] : list (result Response))
                      [(drained upload, Ok unavailable);
                       (mirror (drained upload) (bodyBytes upload), Ok created)]))
  ≤ Z.to_nat 5.
Proof.
  apply (attempts_are_the_calls_made anyUrl scripted 5 upload
           [Ok unavailable; Ok created]).
  vm_compute. reflexivity.
Defined.

Lemma returned_values_come_from_last_attempt_witness :
  resp (mkRT (Some created) None ([] : list (result Response))
          [(drained upload, Ok unavailable);
           (mirror (drained upload) (bodyBytes upload), Ok created)]) = None
  ∨ err (mkRT (Some created) None ([] : list (result Response))
           [(drained upload, Ok unavailable);
            (mirror (drained upload) (bodyBytes upload), Ok created)]) = None.
Proof.
  apply (returned_values_come_from_last_attempt anyUrl scripted 5 upload
           [Ok unavailable; Ok created]).
  vm_compute. reflexivity.
Defined.

Lemma no_tries_no_result_witness :
  RoundTrip anyUrl _ scripted 0 upload [Ok created]
  = Done (mkRT None None [Ok created] []).
Proof.
  apply (no_tries_no_result anyUrl scripted 0 upload [Ok created]).
  - lia.
  - intros rd [= <-]. reflexivity.
Defined.

Lemma unreadable_body_is_not_sent_witness :
  RoundTrip anyUrl _ scripted 5 brokenUpload [Ok created]
  = Done (mkRT None (Some "unexpected EOF") [Ok created] []).
Proof.
  apply (unreadable_body_is_not_sent anyUrl scripted 5 brokenUpload [Ok created]
           {| GoLib.pending := []; GoLib.fault := Some "unexpected EOF" |});
    reflexivity.
Defined.

Lemma transport_errors_are_retried_witness :
  ∃ (s : RoundTripState unit) (rq : Request) (e : string),
    RoundTrip anyUrl _ unreachableHost 5 upload tt = Done s
    ∧ length (attempts s) = Z.to_nat 5
    ∧ last (attempts s) = Some (rq, Err e)
    ∧ resp s = None
    ∧ err s = Some e.
Proof.
  apply (transport_errors_are_retried anyUrl unreachableHost 5 upload tt).
  - reflexivity.
  - intros rd [= <-]. reflexivity.
  - lia.
  - vm_compute. repeat constructor.
Defined.

(** ** The worker pipeline, continued *)

Ltac count :=
  unfold toolRuns, uploads in *; rewrite ?countIf_app; simpl; lia.

Section MoreWorkerFacts.

Context {E : Type} (C : Collaborators E).

(** X13.  When no stage fails, [processImage] returns no error, and
    what it does after the fetch is exactly this: it writes the bytes
    fetched to the input scratch file, runs the moderate command once on
    the two scratch names, uploads the content of the output scratch file
    once, to the destination bucket under the destination name, and
    removes the output and then the input scratch file. *)
Theorem pipeline_success
    (r : processImageReq) (w w1 : World E) (b o media : list byte)
    (e1 e2 e3 : E) (fs' : gmap string (list byte)) (obj : Object) :
  getImageBytes C (sourceBucket r) (filename r) w = (Done b, w1) →
  diskWrite C (ext w1) (filename r) b = (None, e1) →
  combinedOutput C e1 (<[filename r := b]> (files w1))
    (moderateCommand (filename r) (saveToFilename r)) = (o, None, fs', e2) →
  fs' !! saveToFilename r = Some media →
  objectsInsert C e2 (saveToBucket r) (saveToFilename r) media = (Ok obj, e3) →
  processImage C r w
  = (Done None,
     {| ext := e3;
        files := delete (filename r) (delete (saveToFilename r) fs');
        trace :=
          trace w1
          ++ [EvLog ("Read " +:+ pretty (length b)
                     +:+ " bytes from response body...");
              EvWriteFile (filename r);
              EvRun (moderateCommand (filename r) (saveToFilename r));
              EvLog ("Converted " +:+ filename r +:+ " to "
                     +:+ saveToFilename r);
              EvLog "Now starting upload to save-to Cloud Storage Bucket...";
              EvOpen (saveToFilename r);
              EvObjectsInsert (saveToBucket r) (saveToFilename r) media;
              EvLog ("Created object " +:+ Name obj +:+ " at location "
                     +:+ SelfLink obj);
              EvClose (saveToFilename r);
              EvRemove (saveToFilename r);
              EvRemove (filename r)] |}).
Proof.
  intros Hfetch Hwrite Hcmd Hout Hins.
  unfold processImage. unfold bind at 1. rewrite Hfetch. run. simpl.
  rewrite Hwrite. simpl. rewrite Hcmd. simpl. rewrite Hout. simpl.
  rewrite Hins. simpl. by rewrite <- !app_assoc.
Qed.

(** X14.  Once the command has succeeded, both scratch files are gone
    by the time [processImage] is left, whether the output cannot be
    opened, the upload fails or all goes well; the other files are as the
    command left them. *)
Theorem scratch_files_removed_after_transform
    (r : processImageReq) (w w1 w2 : World E) (b o : list byte)
    (e1 e2 : E) (fs' : gmap string (list byte))
    (out : exec (option string)) :
  getImageBytes C (sourceBucket r) (filename r) w = (Done b, w1) →
  diskWrite C (ext w1) (filename r) b = (None, e1) →
  combinedOutput C e1 (<[filename r := b]> (files w1))
    (moderateCommand (filename r) (saveToFilename r)) = (o, None, fs', e2) →
  processImage C r w = (out, w2) →
  files w2 = delete (filename r) (delete (saveToFilename r) fs')
  ∧ files w2 !! filename r = None
  ∧ files w2 !! saveToFilename r = None
  ∧ toolRuns (trace w2) = toolRuns (trace w) + 1.
Proof.
  intros Hfetch Hwrite Hcmd.
  destruct (getImageBytes_frame _ _ _ _ _ _ Hfetch) as (_ & Ht & _).
  unfold processImage. unfold bind at 1. rewrite Hfetch. run. simpl.
  rewrite Hwrite. simpl. rewrite Hcmd. simpl.
  assert (∀ fs : gmap string (list byte),
            delete (filename r) (delete (saveToFilename r) fs)
              !! saveToFilename r = None) as Hgone.
  { intros fs. destruct (decide (filename r = saveToFilename r)) as [->|].
    - apply lookup_delete_eq.
    - rewrite lookup_delete_ne by done. apply lookup_delete_eq. }
  destruct (fs' !! saveToFilename r) as [media|]; simpl.
  - destruct (objectsInsert C e2 (saveToBucket r) (saveToFilename r) media)
      as [[obj|e] e3]; simpl; intros [= <- <-]; simpl;
      (split; [done|]); (split; [apply lookup_delete_eq|]);
      (split; [apply Hgone|]); rewrite <- Ht; count.
  - intros [= <- <-]. simpl.
    split; [done|]. split; [apply lookup_delete_eq|].
    split; [apply Hgone|]. rewrite <- Ht. count.
Qed.

(** X15.  When writing the scratch input file fails, [processImage]
    returns the error of the write; it runs no command, uploads nothing
    and removes no file.  When the file could not be opened, the files
    are as they were.  When the failure came after the open, the scratch
    file holds the bytes that went into it before the error, whatever it
    held before, and it is left behind; the other files are as they
    were. *)
Theorem stage_failure_stops_before_transform
    (r : processImageReq) (w w1 : World E) (b : list byte) (e1 : E)
    (e : string) :
  getImageBytes C (sourceBucket r) (filename r) w = (Done b, w1) →
  diskWrite C (ext w1) (filename r) b = (Some e, e1) →
  ∃ w2 : World E,
    processImage C r w = (Done (Some e), w2)
    ∧ files w2
      = match diskShort C (ext w1) (filename r) b with
        | None => files w
        | Some n => <[filename r := take n b]> (files w)
        end
    ∧ (∀ name : string,
         name ≠ filename r → files w2 !! name = files w !! name)
    ∧ toolRuns (trace w2) = toolRuns (trace w)
    ∧ uploads (trace w2) = uploads (trace w)
    ∧ ∀ name : string,
        EvRemove name ∉ drop (length (trace w1)) (trace w2).
Proof.
  intros Hfetch Hwrite.
  destruct (getImageBytes_frame _ _ _ _ _ _ Hfetch) as (Hf & Ht & Hu).
  unfold processImage. unfold bind at 1. rewrite Hfetch. run. simpl.
  rewrite Hwrite. simpl. eexists. split; [done|]. simpl.
  rewrite Hf.
  split; [done|]. split.
  { intros name Hname.
    destruct (diskShort C (ext w1) (filename r) b) as [n|]; [|done].
    by rewrite lookup_insert_ne. }
  split; [rewrite <- Ht; count|].
  split; [rewrite <- Hu; count|].
  intros name. rewrite <- !app_assoc, drop_app_length. simpl.
  rewrite !elem_of_cons, elem_of_nil. intros [?|[?|[?|[]]]]; discriminate.
Qed.

(** X16.  Whatever happens, [processImage] runs the command at most
    once and attempts at most one upload, and it attempts an upload only
    after it has run the command. *)
Theorem at_most_one_transform_and_upload
    (r : processImageReq) (w w2 : World E) (out : exec (option string)) :
  processImage C r w = (out, w2) →
  toolRuns (trace w2) ≤ toolRuns (trace w) + 1
  ∧ uploads (trace w2) ≤ uploads (trace w) + 1
  ∧ (uploads (trace w2) = uploads (trace w) + 1 →
     toolRuns (trace w2) = toolRuns (trace w) + 1).
Proof.
  unfold processImage. unfold bind at 1.
  destruct (getImageBytes C (sourceBucket r) (filename r) w)
    as [[b|msg] w1] eqn:Hfetch;
    destruct (getImageBytes_frame _ _ _ _ _ _ Hfetch) as (_ & Ht & Hu).
  2: { intros [= <- <-]. lia. }
  run. simpl.
  destruct (diskWrite C (ext w1) (filename r) b) as [[e|] e1]; simpl.
  { intros [= <- <-]. simpl. rewrite <- Ht, <- Hu. split; [|split]; count. }
  destruct (combinedOutput C e1 (<[filename r:=b]> (files w1))
              (moderateCommand (filename r) (saveToFilename r)))
    as [[[o [e|]] fs'] e2]; simpl.
  { intros [= <- <-]. simpl. rewrite <- Ht, <- Hu. split; [|split]; count. }
  destruct (fs' !! saveToFilename r) as [media|]; simpl.
  - destruct (objectsInsert C e2 (saveToBucket r) (saveToFilename r) media)
      as [[obj|e] e3]; simpl; intros [= <- <-]; simpl;
      rewrite <- Ht, <- Hu; (split; [|split]); count.
  - intros [= <- <-]. simpl. rewrite <- Ht, <- Hu. split; [|split]; count.
Qed.

(** X17.  When the upload call fails, [processImage] panics on the nil
    result, after the upload was attempted once and both scratch files
    were removed; the loop of the worker ends there, and the requests
    still queued are not processed. *)
Theorem upload_failure_ends_worker_after_cleanup
    (r : processImageReq) (rest : list processImageReq) (w w1 : World E)
    (b o media : list byte) (e1 e2 e3 : E) (fs' : gmap string (list byte))
    (e : string) :
  getImageBytes C (sourceBucket r) (filename r) w = (Done b, w1) →
  diskWrite C (ext w1) (filename r) b = (None, e1) →
  combinedOutput C e1 (<[filename r := b]> (files w1))
    (moderateCommand (filename r) (saveToFilename r)) = (o, None, fs', e2) →
  fs' !! saveToFilename r = Some media →
  objectsInsert C e2 (saveToBucket r) (saveToFilename r) media = (Err e, e3) →
  ∃ (msg : string) (w2 : World E),
    processImage C r w = (Panicked msg, w2)
    ∧ files w2 = delete (filename r) (delete (saveToFilename r) fs')
    ∧ uploads (trace w2) = uploads (trace w) + 1
    ∧ process C (r :: rest) w = (Panicked msg, w2).
Proof.
  intros Hfetch Hwrite Hcmd Hout Hins.
  destruct (getImageBytes_frame _ _ _ _ _ _ Hfetch) as (_ & _ & Hu).
  assert (∃ msg w2, processImage C r w = (Panicked msg, w2)
            ∧ files w2 = delete (filename r) (delete (saveToFilename r) fs')
            ∧ uploads (trace w2) = uploads (trace w1) + 1)
    as (msg & w2 & Hp & Hf & Hu2).
  { unfold processImage. unfold bind at 1. rewrite Hfetch. run. simpl.
    rewrite Hwrite. simpl. rewrite Hcmd. simpl. rewrite Hout. simpl.
    rewrite Hins. simpl. eexists _, _. split; [done|]. simpl.
    split; [done|]. count. }
  exists msg, w2. split; [done|]. split; [done|]. split; [lia|].
  by apply process_panics.
Qed.

(** X18.  The loop of the worker on two batches of requests is the loop
    on the first batch followed by the loop on the second, unless the
    first ends with a panic: then nothing of the second is processed. *)
Theorem process_app (q1 q2 : list processImageReq) (w : World E) :
  process C (q1 ++ q2) w
  = match process C q1 w with
    | (Done _, w1) => process C q2 w1
    | (Panicked msg, w1) => (Panicked msg, w1)
    end.
Proof.
  revert w. induction q1 as [|r q1 IH]; intros w; [done|].
  cbn [app process]. unfold bind at 1 4.
  destruct (processImage C r w) as [[e|msg] w1]; [|done].
  unfold bind at 1 3.
  destruct (match e with
            | Some e0 =>
                logf ("Could not process image " +:+ saveToFilename r
                      +:+ ": " +:+ e0)
            | None => ret ()
            end w1) as [[u|msg] w2]; [|done].
  unfold bind at 1 2. unfold logf at 1 2. apply IH.
Qed.

End MoreWorkerFacts.

Lemma pipeline_success_witness :
  processImage lab eiffel world0
  = (Done None,
     {| ext := tt;
        files := delete (filename eiffel)
                   (delete (saveToFilename eiffel)
                      (<[saveToFilename eiffel :=
                           String.list_byte_of_string "JPEG"]>
                         (<[filename eiffel :=
                              String.list_byte_of_string "JPEG"]> ∅)));
        trace :=
          trace (getImageBytes lab (sourceBucket eiffel) (filename eiffel)
                   world0).2
          ++ [EvLog ("Read " +:+ pretty (length (String.list_byte_of_string "JPEG"))
                     +:+ " bytes from response body...");
              EvWriteFile (filename eiffel);
              EvRun (moderateCommand (filename eiffel) (saveToFilename eiffel));
              EvLog ("Converted " +:+ filename eiffel +:+ " to "
                     +:+ saveToFilename eiffel);
              EvLog "Now starting upload to save-to Cloud Storage Bucket...";
              EvOpen (saveToFilename eiffel);
              EvObjectsInsert (saveToBucket eiffel) (saveToFilename eiffel)
                (String.list_byte_of_string "JPEG");
              EvLog ("Created object " +:+ "eiffel-t.jpg" +:+ " at location "
                     +:+ "self/eiffel-t.jpg");
              EvClose (saveToFilename eiffel);
              EvRemove (saveToFilename eiffel);
              EvRemove (filename eiffel)] |}).
Proof.
  apply (pipeline_success lab eiffel world0
           (getImageBytes lab (sourceBucket eiffel) (filename eiffel) world0).2
           (String.list_byte_of_string "JPEG") []
           (String.list_byte_of_string "JPEG") tt tt tt
           (<[saveToFilename eiffel := String.list_byte_of_string "JPEG"]>
              (<[filename eiffel := String.list_byte_of_string "JPEG"]> ∅))
           {| Name := "eiffel-t.jpg"; SelfLink := "self/eiffel-t.jpg";
              MediaLink := "media/eiffel-t.jpg" |});
    vm_compute; reflexivity.
Defined.

Lemma scratch_files_removed_after_transform_witness :
  files (processImage lab refused world0).2 !! saveToFilename refused = None.
Proof.
  destruct (scratch_files_removed_after_transform lab refused world0
              (getImageBytes lab (sourceBucket refused) (filename refused)
                 world0).2
              (processImage lab refused world0).2
              (String.list_byte_of_string "JPEG") [] tt tt
              (<[saveToFilename refused := String.list_byte_of_string "JPEG"]>
                 (<[filename refused := String.list_byte_of_string "JPEG"]> ∅))
              (processImage lab refused world0).1)
    as (_ & _ & Hgone & _); [vm_compute; reflexivity..|].
  exact Hgone.
Defined.

Lemma stage_failure_stops_before_transform_witness :
  (∃ w2 : World unit,
     processImage lab
       {| sourceBucket := "photos"; filename := EmptyString;
          saveToBucket := "thumbs"; saveToFilename := "-t" |} world0
     = (Done (Some "open : no such file or directory"), w2)
     ∧ files w2 = files world0)
  ∧ ∃ w2 : World unit,
      processImage lab huge world0
      = (Done (Some "write huge.jpg: no space left on device"), w2)
      ∧ files w2
        = <["huge.jpg" := String.list_byte_of_string "JP"]> (files world0).
Proof.
  split.
  - destruct (stage_failure_stops_before_transform lab
                {| sourceBucket := "photos"; filename := EmptyString;
                   saveToBucket := "thumbs"; saveToFilename := "-t" |}
                world0
                (getImageBytes lab "photos" EmptyString world0).2
                (String.list_byte_of_string "JPEG") tt
                "open : no such file or directory")
      as (w2 & Hp & Hf & _); [vm_compute; reflexivity..|].
    exists w2. split; [exact Hp|exact Hf].
  - destruct (stage_failure_stops_before_transform lab huge world0
                (getImageBytes lab "photos" "huge.jpg" world0).2
                (String.list_byte_of_string "JPEG") tt
                "write huge.jpg: no space left on device")
      as (w2 & Hp & Hf & _); [vm_compute; reflexivity..|].
    exists w2. split; [exact Hp|exact Hf].
Defined.

Lemma at_most_one_transform_and_upload_witness :
  uploads (trace (processImage lab eiffel world0).2)
  ≤ uploads (trace world0) + 1.
Proof.
  destruct (at_most_one_transform_and_upload lab eiffel world0
              (processImage lab eiffel world0).2
              (processImage lab eiffel world0).1) as (_ & Hu & _).
  - by destruct (processImage lab eiffel world0).
  - exact Hu.
Defined.

Lemma upload_failure_ends_worker_after_cleanup_witness :
  ∃ (msg : string) (w2 : World unit),
    processImage lab refused world0 = (Panicked msg, w2)
    ∧ process lab (refused :: [eiffel]) world0 = (Panicked msg, w2).
Proof.
  destruct (upload_failure_ends_worker_after_cleanup lab refused [eiffel] world0
              (getImageBytes lab (sourceBucket refused) (filename refused)
                 world0).2
              (String.list_byte_of_string "JPEG") []
              (String.list_byte_of_string "JPEG") tt tt tt
              (<[saveToFilename refused := String.list_byte_of_string "JPEG"]>
                 (<[filename refused := String.list_byte_of_string "JPEG"]> ∅))
              "googleapi: Error 403: Forbidden")
    as (msg & w2 & Hp & _ & _ & Hloop); [vm_compute; reflexivity..|].
  exists msg, w2. split; [exact Hp|exact Hloop].
Defined.

(** ** The batch copiers *)

Lemma JoinWith_pair (sep a b : string) : JoinWith sep [a; b] = a +:+ sep +:+ b.
Proof. reflexivity. Qed.

Lemma filter_all_length {A} (P : A → Prop) `{∀ x, Decision (P x)} (l : list A) :
  Forall P l → length (filter P l) = length l.
Proof.
  induction 1 as [|x l Hx _ IH]; [done|].
  rewrite filter_cons_True by done. simpl. by rewrite IH.
Qed.

(** In calls that all failed but possibly the last, the number of calls
    that succeeded is one when the last succeeded, and none otherwise. *)
Lemma successes_at_end (l : list CopyCall) :
  (∀ k call, l !! k = Some call → S k < length l → copyError call ≠ None) →
  length (filter (λ call, copyError call = None) l)
  = match last l with
    | Some call => if decide (copyError call = None) then 1 else 0
    | None => 0
    end.
Proof.
  induction l as [|x l IH]; intros Hfail; [done|].
  destruct l as [|y l].
  - simpl. rewrite filter_cons. by case_decide.
  - change (last (x :: y :: l)) with (last (y :: l)).
    rewrite filter_cons_False.
    + apply IH. intros k call Hk Hlt. apply (Hfail (S k)); [done|simpl in *; lia].
    + apply (Hfail 0); [done|simpl; lia].
Qed.

Section CopyFacts.

Context {St : Type} (Copy : CopyService St).

(** The calls of the retry loop: at most [n], at least one when [n] is
    not 0, all with the same four names, all failed but possibly the
    last, whose error is the result; and [n] of them when the result is
    an error. *)
Lemma copyAttempts_log (n : nat) (sb sn db dn : string) (err : option string)
    (c : Copier St) :
  ∃ new : list CopyCall,
    copyCalls (copyAttempts Copy n sb sn db dn err c).2 = copyCalls c ++ new
    ∧ length new ≤ n
    ∧ (0 < n → 0 < length new)
    ∧ Forall (copyCallOf sb sn db dn) new
    ∧ (∀ k call, new !! k = Some call → S k < length new →
                 copyError call ≠ None)
    ∧ (copyAttempts Copy n sb sn db dn err c).1
      = match last new with
        | Some call => copyError call
        | None => err
        end
    ∧ ((copyAttempts Copy n sb sn db dn err c).1 ≠ None → length new = n).
Proof.
  revert err c. induction n as [|n IH]; intros err c.
  { exists []. simpl. rewrite app_nil_r. repeat split; try done; lia. }
  cbn [copyAttempts]. unfold callCopy.
  destruct (Copy (service c) sb sn db dn) as [e s'] eqn:Hcopy.
  set (call := {| copySourceBucket := sb; copySourceName := sn;
                  copyDestBucket := db; copyDestName := dn;
                  copyError := e |}).
  destruct e as [e|].
  - destruct (IH (Some e) {| service := s'; copyCalls := copyCalls c ++ [call] |})
      as (new & Hcalls & Hlen & Hpos & Hargs & Hfail & Hres & Hfull).
    exists (call :: new). rewrite Hcalls. simpl. rewrite <- app_assoc.
    split; [done|]. split; [lia|]. split; [lia|].
    split; [by constructor|]. split; [|split].
    + intros [|k] call' Hk Hlt; simpl in Hk.
      * by injection Hk as <-.
      * apply (Hfail k); [done|lia].
    + rewrite Hres. destruct new as [|x new]; [done|].
      change (last (call :: x :: new)) with (last (x :: new)).
      destruct (last (x :: new)) eqn:Hlast; [done|].
      by apply last_None in Hlast.
    + intros Hne. rewrite Hfull by done. done.
  - exists [call]. simpl. split; [done|]. split; [lia|]. split; [lia|].
    split; [by repeat constructor|]. split; [|done].
    intros [|k] call' Hk Hlt; simpl in *; [lia|done].
Qed.

(** X19.  [copyObject] calls the storage service at least once and at
    most four times, always with the four names it was given; it stops at
    the first call that succeeds and returns the error of its last call,
    so it returns an error only after four failed calls. *)
Theorem copyObject_tries_four_times
    (sb sn db dn : string) (c : Copier St) :
  ∃ new : list CopyCall,
    copyCalls (DuplicateFiles.copyObject Copy sb sn db dn c).2
    = copyCalls c ++ new
    ∧ 1 ≤ length new ≤ 4
    ∧ Forall (copyCallOf sb sn db dn) new
    ∧ (∀ k call, new !! k = Some call → S k < length new →
                 copyError call ≠ None)
    ∧ (∃ call, last new = Some call
               ∧ copyError call
                 = (DuplicateFiles.copyObject Copy sb sn db dn c).1)
    ∧ ((DuplicateFiles.copyObject Copy sb sn db dn c).1 ≠ None →
       length new = 4).
Proof.
  unfold DuplicateFiles.copyObject.
  destruct (copyAttempts_log 4 sb sn db dn None c)
    as (new & Hcalls & Hlen & Hpos & Hargs & Hfail & Hres & Hfull).
  exists new. split; [done|]. split; [lia|]. split; [done|].
  split; [done|]. split; [|done].
  destruct (last new) as [call|] eqn:Hlast; [by exists call|].
  apply last_None in Hlast. subst new. simpl in Hpos. lia.
Qed.

(** X20.  [duplicateFiles] copies every object inside its own bucket,
    to the name made of the prefix, a dash and the name of the object,
    which is never the name of the object itself; it makes between one
    and four calls for each object, and the names it reports as failed
    are names of objects it was given, in their order. *)
Theorem duplicateFiles_copies_beside_the_source
    (prefix : string) (objs : list DuplicateFiles.Object) (out : list string)
    (c : Copier St) :
  ∃ (failed : list string) (new : list CopyCall),
    (DuplicateFiles.duplicateFiles Copy prefix objs out c).1.1 = out ++ failed
    ∧ failed `sublist_of` (DuplicateFiles.Name <$> objs)
    ∧ copyCalls (DuplicateFiles.duplicateFiles Copy prefix objs out c).1.2
      = copyCalls c ++ new
    ∧ length objs ≤ length new ≤ 4 * length objs
    ∧ Forall (λ call,
                copyDestBucket call = copySourceBucket call
                ∧ copyDestName call = prefix +:+ "-" +:+ copySourceName call
                ∧ copyDestName call ≠ copySourceName call
                ∧ ∃ o, o ∈ objs ∧ copySourceBucket call = DuplicateFiles.Bucket o
                       ∧ copySourceName call = DuplicateFiles.Name o) new.
Proof.
  unfold DuplicateFiles.duplicateFiles. cbn [fst snd].
  revert out c. induction objs as [|o objs IH]; intros out c.
  { exists [], []. simpl. rewrite !app_nil_r. repeat split; try done; lia. }
  cbn [DuplicateFiles.duplicateEach].
  unfold DuplicateFiles.copyObject.
  destruct (copyAttempts_log 4 (DuplicateFiles.Bucket o)
              (DuplicateFiles.Name o) (DuplicateFiles.Bucket o)
              (JoinWith "-" [prefix; DuplicateFiles.Name o]) None c)
    as (new1 & Hcalls1 & Hlen1 & Hpos1 & Hargs1 & _ & _ & _).
  specialize (Hpos1 ltac:(lia)).
  destruct (copyAttempts Copy 4 (DuplicateFiles.Bucket o)
              (DuplicateFiles.Name o) (DuplicateFiles.Bucket o)
              (JoinWith "-" [prefix; DuplicateFiles.Name o]) None c)
    as [err c1]. simpl in Hcalls1.
  destruct (IH (match err with
                | Some _ => out ++ [DuplicateFiles.Name o]
                | None => out
                end) c1)
    as (failed & new & Hout & Hsub & Hcalls & Hlen & Hargs).
  exists (match err with
          | Some _ => DuplicateFiles.Name o :: failed
          | None => failed
          end), (new1 ++ new).
  rewrite Hout, Hcalls, Hcalls1, <- app_assoc. split; [|split; [|split; [done|split]]].
  - destruct err; [|done]. by rewrite <- app_assoc.
  - rewrite fmap_cons. destruct err; [by apply sublist_skip|by apply sublist_cons].
  - rewrite length_app. simpl. lia.
  - apply Forall_app. split.
    + eapply Forall_impl; [exact Hargs1|]. intros call (Hsb & Hsn & Hdb & Hdn).
      rewrite Hsb, Hsn, Hdb, Hdn, JoinWith_pair. split; [done|]. split; [done|].
      split.
      * intros H. apply (f_equal String.length) in H.
        rewrite !str_length_app in H. simpl in H. lia.
      * exists o. split; [apply list_elem_of_here|done].
    + eapply Forall_impl; [exact Hargs|].
      intros call (? & ? & ? & o' & ? & ?). repeat split; try done.
      exists o'. split; [by apply list_elem_of_further|done].
Qed.

(** X21.  [copyObjects] reports every request exactly once, as a failure
    (its destination name, on [out]) or as a success (on [fin]); it makes
    between one and three calls for each request; the successes it
    reports are as many as the calls that succeeded, and a destination
    name is reported as failed only after three failed calls to it,
    whatever error the variable [err] held before. *)
Theorem copyObjects_accounts_for_every_request
    (reqs : list GenerateFiles.GCSCopyReq) (err : option string)
    (out : list string) (fin : nat) (c : Copier St) :
  ∃ (failed : list string) (done : nat) (new : list CopyCall),
    (GenerateFiles.copyObjects Copy reqs err out fin c).1.1.2 = out ++ failed
    ∧ (GenerateFiles.copyObjects Copy reqs err out fin c).1.2 = fin + done
    ∧ length failed + done = length reqs
    ∧ failed `sublist_of` (GenerateFiles.DestFile <$> reqs)
    ∧ copyCalls (GenerateFiles.copyObjects Copy reqs err out fin c).2
      = copyCalls c ++ new
    ∧ length reqs ≤ length new ≤ 3 * length reqs
    ∧ length (filter (λ call, copyError call = None) new) = done
    ∧ ∀ name, name ∈ failed → 3 ≤ length (filter (failedCopyTo name) new).
Proof.
  revert err out fin c. induction reqs as [|o reqs IH]; intros err out fin c.
  { exists [], 0, []. simpl. rewrite !app_nil_r.
    repeat split; try done; try lia.
    intros name Hname. by apply elem_of_nil in Hname. }
  cbn [GenerateFiles.copyObjects].
  destruct (copyAttempts_log 3 (GenerateFiles.SourceBucket o)
              (GenerateFiles.SourceFile o) (GenerateFiles.DestBucket o)
              (GenerateFiles.DestFile o) err c)
    as (new1 & Hcalls1 & Hlen1 & Hpos1 & Hargs1 & Hfail1 & Hres1 & Hfull1).
  destruct (copyAttempts Copy 3 (GenerateFiles.SourceBucket o)
              (GenerateFiles.SourceFile o) (GenerateFiles.DestBucket o)
              (GenerateFiles.DestFile o) err c) as [err' c1].
  simpl in Hcalls1, Hres1, Hfull1. specialize (Hpos1 ltac:(lia)).
  pose proof (successes_at_end new1 Hfail1) as Hsucc1.
  destruct (last new1) as [last1|] eqn:Hlast1;
    [|apply last_None in Hlast1; subst new1; simpl in Hpos1; lia].
  rewrite <- Hres1 in Hsucc1.
  destruct err' as [e|].
  - rewrite decide_False in Hsucc1 by done.
    destruct (IH (Some e) (out ++ [GenerateFiles.DestFile o]) fin c1)
      as (failed & done' & new & Hout & Hfin & Hcount & Hsub & Hcalls & Hlen
          & Hsucc & Hthree).
    exists (GenerateFiles.DestFile o :: failed), done', (new1 ++ new).
    rewrite Hout, Hfin, Hcalls, Hcalls1, <- !app_assoc.
    split; [done|]. split; [done|]. split; [simpl; lia|].
    split; [rewrite fmap_cons; by apply sublist_skip|]. split; [done|].
    split; [rewrite length_app; simpl; lia|].
    split; [rewrite filter_app, length_app; lia|].
    intros name Hname. rewrite filter_app, length_app.
    apply elem_of_cons in Hname as [->|Hname]; [|specialize (Hthree _ Hname); lia].
    rewrite filter_all_length; [rewrite Hfull1 by done; lia|].
    apply Forall_lookup. intros k call Hk. split.
    + rewrite Forall_lookup in Hargs1. by destruct (Hargs1 k call Hk) as (_ & _ & _ & ?).
    + destruct (decide (S k < length new1)) as [Hlt|Hge]; [by eapply Hfail1|].
      assert (last new1 = Some call) as Hlast.
      { apply (last_of_lookup _ k); [done|]. apply lookup_lt_Some in Hk. lia. }
      rewrite Hlast in Hlast1. injection Hlast1 as ->. by rewrite <- Hres1.
  - rewrite decide_True in Hsucc1 by done.
    destruct (IH None out (S fin) c1)
      as (failed & done' & new & Hout & Hfin & Hcount & Hsub & Hcalls & Hlen
          & Hsucc & Hthree).
    exists failed, (S done'), (new1 ++ new).
    rewrite Hout, Hfin, Hcalls, Hcalls1, <- !app_assoc.
    split; [done|]. split; [lia|]. split; [simpl; lia|].
    split; [rewrite fmap_cons; by apply sublist_cons|]. split; [done|].
    split; [rewrite length_app; simpl; lia|].
    split; [rewrite filter_app, length_app; lia|].
    intros name Hname. rewrite filter_app, length_app.
    specialize (Hthree _ Hname). lia.
Qed.

End CopyFacts.

(** The copiers on a service that refuses the copies to [1-...]: of the
    three requests that [main] would send for four files, the first is
    reported as failed after three calls, the other two succeed at once. *)
Example copyObjects_on_picky_storage :
  GenerateFiles.copyObjects pickyStorage
    (GenerateFiles.copyRequests 4 "bucket" "x.jpg") None [] 0 (mkCopier 0 [])
  = (None, ["1-x.jpg"], 2,
     mkCopier 5
       [mkCopyCall "bucket" "0-x.jpg" "bucket" "1-x.jpg" (Some "googleapi: Error 503");
        mkCopyCall "bucket" "0-x.jpg" "bucket" "1-x.jpg" (Some "googleapi: Error 503");
        mkCopyCall "bucket" "0-x.jpg" "bucket" "1-x.jpg" (Some "googleapi: Error 503");
        mkCopyCall "bucket" "0-x.jpg" "bucket" "2-x.jpg" None;
        mkCopyCall "bucket" "0-x.jpg" "bucket" "3-x.jpg" None]).
Proof. vm_compute. reflexivity. Qed.

(** The decimal text of a natural number has no dash. *)
Lemma pretty_N_go_no_dash (x : N) (s : string) :
  GoLib.containsByte "-" s = false →
  GoLib.containsByte "-" (pretty_N_go x s) = false.
Proof.
  revert s. induction (N.lt_wf_0 x) as [x _ IH]; intros s Hs.
  assert (x = 0 ∨ 0 < x)%N as [->|Hx] by lia.
  - by rewrite pretty_N_go_0.
  - rewrite pretty_N_go_step by done. apply IH.
    { by apply N.div_lt. }
    simpl. rewrite Hs. unfold pretty_N_char. by repeat case_match.
Qed.

Lemma Itoa_no_dash (i : Z) :
  (0 ≤ i)%Z → GoLib.containsByte "-" (Itoa i) = false.
Proof.
  intros Hi. unfold Itoa, pretty, pretty_Z. destruct i as [|p|p]; [done| |lia].
  unfold pretty, pretty_positive, pretty, pretty_N.
  case_decide; [done|]. by apply pretty_N_go_no_dash.
Qed.

Lemma buildName_inj (i j : Z) (n m : string) :
  (0 ≤ i)%Z → (0 ≤ j)%Z →
  GenerateFiles.buildName i n = GenerateFiles.buildName j m →
  i = j ∧ n = m.
Proof.
  intros Hi Hj. unfold GenerateFiles.buildName. rewrite !JoinWith_pair.
  intros H. apply split_at_first in H as [H ->]; [|by apply Itoa_no_dash..].
  split; [|done]. by apply (inj pretty).
Qed.

(** X22.  [buildName] loses nothing on the prefixes that are not
    negative: two names built are equal only when the prefixes are equal
    and the names are equal. *)
Theorem buildName_injective (i j : Z) (n m : string) :
  (0 ≤ i)%Z → (0 ≤ j)%Z →
  GenerateFiles.buildName i n = GenerateFiles.buildName j m →
  i = j ∧ n = m.
Proof.
  intros Hi Hj. unfold GenerateFiles.buildName. rewrite !JoinWith_pair.
  intros H. apply split_at_first in H as [H ->]; [|by apply Itoa_no_dash..].
  split; [|done]. by apply (inj pretty).
Qed.

Lemma buildName_injective_witness : 7%Z = 7%Z ∧ "x.jpg" = "x.jpg".
Proof.
  apply (buildName_injective 7 7 "x.jpg" "x.jpg"); [lia|lia|reflexivity].
Defined.

(** X23.  The copy requests that [main] sends are [numFiles - 1] in
    number; each copies the base file, named with the prefix 0, inside
    the bucket; their destination names are all different, and none is
    the name of the base file. *)
Theorem copyRequests_have_distinct_destinations
    (numFiles : Z) (bucket fileName : string) :
  length (GenerateFiles.copyRequests numFiles bucket fileName)
  = Z.to_nat numFiles - 1
  ∧ NoDup (GenerateFiles.DestFile
           <$> GenerateFiles.copyRequests numFiles bucket fileName)
  ∧ Forall (λ o,
              GenerateFiles.SourceBucket o = bucket
              ∧ GenerateFiles.DestBucket o = bucket
              ∧ GenerateFiles.SourceFile o = GenerateFiles.buildName 0 fileName
              ∧ GenerateFiles.DestFile o ≠ GenerateFiles.SourceFile o)
           (GenerateFiles.copyRequests numFiles bucket fileName).
Proof.
  unfold GenerateFiles.copyRequests. split; [|split].
  - by rewrite length_fmap, length_seq.
  - rewrite <- list_fmap_compose. apply NoDup_fmap_2_strong; [|apply NoDup_seq].
    intros x y _ _ H. simpl in H.
    apply buildName_inj in H as [H _]; lia.
  - apply Forall_fmap, Forall_forall. intros i Hi. simpl.
    repeat split. intros H.
    apply buildName_inj in H as [H _]; [|lia..].
    apply elem_of_seq in Hi. lia.
Qed.

(** ** Listing a bucket *)

Section ListingFacts.

Import DuplicateFiles.

Context {St : Type} (ListObjects : St → string → string → result Objects * St).

Lemma itemsOf_cons (call : ListCall) (calls : list ListCall) :
  itemsOf (call :: calls)
  = match listAnswer call with
    | Ok page => Items page
    | Err _ => []
    end ++ itemsOf calls.
Proof. reflexivity. Qed.

(** The loop over the pages that follow the first one. *)
Lemma nextPages_log (fuel : nat) (b token : string) (objs : list Object)
    (l : Lister St) :
  ∃ new : list ListCall,
    listCalls (nextPages ListObjects fuel b token objs l).2
    = listCalls l ++ new
    ∧ length new ≤ fuel
    ∧ chained b token new
    ∧ (token = EmptyString → new = [])
    ∧ match (nextPages ListObjects fuel b token objs l).1 with
      | Returned all =>
          all = objs ++ itemsOf new
          ∧ (token ≠ EmptyString →
             ∃ call, last new = Some call ∧ endsListing call)
      | Exited _ => False
      | Unfinished =>
          token ≠ EmptyString ∧ length new = fuel ∧ Forall gotInnerPage new
      end.
Proof.
  revert token objs l. induction fuel as [|fuel IH]; intros token objs l.
  - simpl. case_decide as Htok.
    + exists []. simpl. rewrite !app_nil_r. by repeat split.
    + exists []. simpl. rewrite !app_nil_r. by repeat split.
  - cbn [nextPages]. case_decide as Htok.
    { exists []. simpl. rewrite !app_nil_r. repeat split; try done. lia. }
    unfold callList.
    destruct (ListObjects (listing l) b token) as [[page|e] s'] eqn:Hlist.
    + set (call := {| listBucket := b; listToken := token;
                      listAnswer := Ok page |}).
      destruct (IH (NextPageToken page) (objs ++ Items page)
                  {| listing := s'; listCalls := listCalls l ++ [call];
                     printed := printed l |})
        as (new & Hcalls & Hlen & Hchain & Hempty & Hres).
      exists (call :: new). rewrite Hcalls. simpl. rewrite <- app_assoc.
      split; [done|]. split; [lia|]. split; [|split; [done|]].
      * repeat split; try done.
        destruct (decide (NextPageToken page = EmptyString)) as [He|Hne];
          [left; by apply Hempty|by right].
      * destruct (nextPages ListObjects fuel b (NextPageToken page)
                    (objs ++ Items page) _).1 as [all|msg|]; [|done|].
        -- destruct Hres as [-> Hend]. rewrite itemsOf_cons, app_assoc.
           split; [done|]. intros _.
           destruct (decide (NextPageToken page = EmptyString)) as [He|Hne].
           ++ rewrite (Hempty He). by exists call.
           ++ destruct (Hend Hne) as (call' & Hlast & Hends).
              exists call'. split; [|done].
              destruct new as [|x new]; [done|]. done.
        -- destruct Hres as (Hne & <- & Hall). repeat split; try done.
           constructor; [by exists page|done].
    + set (call := {| listBucket := b; listToken := token;
                      listAnswer := Err e |}).
      exists [call]. simpl. split; [done|]. split; [lia|].
      split; [done|]. split; [done|]. rewrite app_nil_r.
      split; [done|]. intros _. by exists call.
Qed.

(** X24.  [getObjects] asks for the first page without a token and for
    each further page with the token of the page before, until a page has
    no token.  When the first call fails the program exits.  Otherwise it
    returns the objects of all the pages it got, in order; when a later
    call fails it returns what it has so far.  It is left unfinished
    only when every page allowed had still another page after it. *)
Theorem getObjects_follows_the_pages
    (fuel : nat) (b : string) (l : Lister St) :
  ∃ new : list ListCall,
    listCalls (getObjects ListObjects fuel b l).2 = listCalls l ++ new
    ∧ 1 ≤ length new ≤ S fuel
    ∧ chained b EmptyString new
    ∧ match (getObjects ListObjects fuel b l).1 with
      | Returned all =>
          all = itemsOf new
          ∧ ∃ call, last new = Some call ∧ endsListing call
                    ∧ (∀ e, listAnswer call = Err e → 2 ≤ length new)
      | Exited _ =>
          ∃ e, new = [{| listBucket := b; listToken := EmptyString;
                         listAnswer := Err e |}]
      | Unfinished => length new = S fuel ∧ Forall gotInnerPage new
      end.
Proof.
  unfold getObjects, callList.
  destruct (ListObjects (listing l) b EmptyString) as [[page|e] s'] eqn:Hlist.
  - set (call := {| listBucket := b; listToken := EmptyString;
                    listAnswer := Ok page |}).
    destruct (nextPages_log fuel b (NextPageToken page) (Items page)
                {| listing := s'; listCalls := listCalls l ++ [call];
                   printed := printed l |})
      as (new & Hcalls & Hlen & Hchain & Hempty & Hres).
    exists (call :: new). rewrite Hcalls. simpl. rewrite <- app_assoc.
    split; [done|]. split; [lia|]. split.
    + repeat split; try done.
      destruct (decide (NextPageToken page = EmptyString)) as [He|Hne];
        [left; by apply Hempty|by right].
    + destruct (nextPages ListObjects fuel b (NextPageToken page)
                  (Items page) _).1 as [all|msg|]; [|done|].
      * destruct Hres as [-> Hend]. rewrite itemsOf_cons. split; [done|].
        destruct (decide (NextPageToken page = EmptyString)) as [He|Hne].
        -- rewrite (Hempty He). exists call. by repeat split.
        -- destruct (Hend Hne) as (call' & Hlast & Hends).
           exists call'. destruct new as [|x new]; [done|].
           repeat split; try done. intros _ _. simpl. lia.
      * destruct Hres as (Hne & <- & Hall). split; [done|].
        constructor; [by exists page|done].
  - exists [{| listBucket := b; listToken := EmptyString; listAnswer := Err e |}].
    simpl. split; [done|]. split; [lia|]. split; [done|]. by exists e.
Qed.

End ListingFacts.

(** ** The notification relay *)

Section RelayFacts.

Import Relay.

Lemma transformValues_id (n : notification) :
  FormValue {| Form := transformValues n |} "id"
  = BucketName n +:+ "/" +:+ ObjectName n.
Proof. unfold FormValue, transformValues. simpl. by rewrite lookup_insert_eq. Qed.

Lemma transformValues_save_to (n : notification) :
  FormValue {| Form := transformValues n |} "save-to" = saveToBucketName.
Proof.
  unfold FormValue, transformValues. simpl.
  rewrite lookup_insert_ne by done. by rewrite lookup_insert_eq.
Qed.

Lemma transformValues_parsed (n : notification) :
  GoLib.containsByte "/" (BucketName n) = false →
  GoLib.containsByte "/" (ObjectName n) = false →
  ∃ req : processImageReq,
    getProcessImageReq {| Form := transformValues n |} = Ok req
    ∧ sourceBucket req = BucketName n
    ∧ filename req = ObjectName n
    ∧ saveToBucket req = saveToBucketName.
Proof.
  intros Hb Ho.
  destruct (getProcessImageReq_bucket_object {| Form := transformValues n |}
              (BucketName n) (ObjectName n))
    as (req & Hreq & Hsb & Hf & Hsave); [apply transformValues_id|done..|].
  exists req. by rewrite Hsave, transformValues_save_to.
Qed.

(** X25.  The form that the relay posts for a notification is parsed by
    the pool into a request for that bucket and that object, to be saved
    in the thumbnail bucket of the relay, whenever neither the name of
    the bucket nor the name of the object has a slash. *)
Theorem relay_form_parses_back (n : notification) :
  GoLib.containsByte "/" (BucketName n) = false →
  GoLib.containsByte "/" (ObjectName n) = false →
  ∃ req : processImageReq,
    getProcessImageReq {| Form := transformValues n |} = Ok req
    ∧ sourceBucket req = BucketName n
    ∧ filename req = ObjectName n
    ∧ saveToBucket req = saveToBucketName.
Proof.
  intros Hb Ho.
  destruct (getProcessImageReq_bucket_object {| Form := transformValues n |}
              (BucketName n) (ObjectName n))
    as (req & Hreq & Hsb & Hf & Hsave); [apply transformValues_id|done..|].
  exists req. by rewrite Hsave, transformValues_save_to.
Qed.

Lemma relay_form_parses_back_witness :
  ∃ req : processImageReq,
    getProcessImageReq {| Form := transformValues eiffelNotification |} = Ok req
    ∧ sourceBucket req = BucketName eiffelNotification
    ∧ filename req = ObjectName eiffelNotification
    ∧ saveToBucket req = saveToBucketName.
Proof.
  apply (relay_form_parses_back eiffelNotification); vm_compute; reflexivity.
Defined.

Section AnyBackend.

Context {B : Type}
        (PostForm : B → string → gmap string (list string)
                    → result PostResponse * B).

(** X26.  [transformImage] posts exactly once, to the [/process] route
    of the pool, the form with the identifier [bucket/object] and the
    thumbnail bucket.  It returns no error exactly when the POST is
    answered with the status 200 and a body that can be read; any other
    status gives the error [Non-200 response from backend]. *)
Theorem transformImage_posts_once (n : notification) (c : AppContext B) :
  posts (transformImage PostForm n c).2
  = posts c ++ [{| postUrl := "http://107.178.243.219/process";
                   postValues := transformValues n |}]
  ∧ backend (transformImage PostForm n c).2
    = (PostForm (backend c) transformUrl (transformValues n)).2
  ∧ ((transformImage PostForm n c).1 = None
     ↔ ∃ resp, (PostForm (backend c) transformUrl (transformValues n)).1
               = Ok resp
               ∧ StatusCode resp = 200%Z
               ∧ GoLib.fault (Body resp) = None)
  ∧ (∀ resp, (PostForm (backend c) transformUrl (transformValues n)).1
             = Ok resp →
             StatusCode resp ≠ 200%Z →
             (transformImage PostForm n c).1
             = Some "Non-200 response from backend").
Proof.
  unfold transformImage. simpl.
  destruct (PostForm (backend c) transformUrl (transformValues n))
    as [[resp|e] b'] eqn:Hpost; simpl.
  - case_decide as Hst; simpl.
    + repeat split; try done.
      intros (resp' & [= <-] & Hok & _). done.
    + destruct (GoLib.fault (Body resp)) as [e|] eqn:Hfault; simpl.
      * repeat split; try done.
        -- intros (resp' & [= <-] & _ & Hf). congruence.
        -- intros resp' [= <-] Hne. unfold StatusOK in Hst. by destruct Hst.
      * repeat split; try done.
        -- intros _. exists resp. repeat split; [|done].
           unfold StatusOK in Hst. by destruct (decide (StatusCode resp = 200%Z)).
        -- intros resp' [= <-] Hne. unfold StatusOK in Hst. by destruct Hst.
  - repeat split; try done. by intros (resp' & ? & _).
Qed.

End AnyBackend.

(** X27.  Take a notification whose bucket name and object name have
    no slash, and the pool as the backend of the relay.  When the queue
    of the pool has a free slot, [transformImage] returns no error, and
    the request for the bucket and the object of the notification is
    then at the end of the queue.  When the queue is full, it being a
    buffered channel or no worker waiting to receive, the relay gets the
    error [Non-200 response from backend] and the queue is unchanged. *)
Theorem relay_succeeds_when_pool_has_room
    (hostname : string) (n : notification) (c : AppContext Chan) :
  GoLib.containsByte "/" (BucketName n) = false →
  GoLib.containsByte "/" (ObjectName n) = false →
  (length (buf (backend c)) < capacity (backend c) →
     (transformImage (poolPostForm hostname) n c).1 = None
     ∧ ∃ req,
         buf (backend (transformImage (poolPostForm hostname) n c).2)
         = buf (backend c) ++ [req]
         ∧ sourceBucket req = BucketName n
         ∧ filename req = ObjectName n
         ∧ saveToBucket req = saveToBucketName)
  ∧ (capacity (backend c) ≤ length (buf (backend c)) →
     0 < capacity (backend c) ∨ ready (backend c) = 0 →
     (transformImage (poolPostForm hostname) n c).1
     = Some "Non-200 response from backend"
     ∧ backend (transformImage (poolPostForm hostname) n c).2 = backend c).
Proof.
  intros Hb Ho.
  destruct (transformValues_parsed n Hb Ho) as (req & Hreq & Hsb & Hf & Hsave).
  unfold transformImage, poolPostForm, ServeHTTP. simpl. rewrite Hreq.
  split.
  - intros Hocc. rewrite trySend_room by done. simpl.
    split; [done|]. by exists req.
  - intros Hocc Hbuffered. by rewrite trySend_full.
Qed.

Lemma relay_succeeds_when_pool_has_room_witness :
  (transformImage (poolPostForm "host-1") eiffelNotification
     (mkContext (makeChan 1) [] [])).1 = None
  ∧ (transformImage (poolPostForm "host-1") eiffelNotification
       (mkContext (parked 2 fullChan) [] [])).1
    = Some "Non-200 response from backend".
Proof.
  split.
  - destruct (relay_succeeds_when_pool_has_room "host-1" eiffelNotification
                (mkContext (makeChan 1) [] [])) as [Hroom _];
      [vm_compute; reflexivity..|].
    apply Hroom. simpl. lia.
  - destruct (relay_succeeds_when_pool_has_room "host-1" eiffelNotification
                (mkContext (parked 2 fullChan) [] [])) as [_ Hfull];
      [vm_compute; reflexivity..|].
    apply Hfull; simpl; lia.
Defined.

End RelayFacts.

Section RelayTaskFacts.

Import RelayTasks.

Lemma worker_values_id (id : string) :
  FormValue {| Form := valuesSet "save-to" saveToBucketName
                         (valuesSet "id" id ∅) |} "id" = id.
Proof.
  unfold FormValue, valuesSet. simpl.
  rewrite lookup_insert_ne by done. by rewrite lookup_insert_eq.
Qed.

(** X28.  With the pool as its backend, the [/worker] handler of the
    relay answers 200 when the queue of the pool has a free slot, and
    503 when it is full, it being a buffered channel or no worker
    waiting to receive, whatever the task holds: the identifier it
    builds always has a slash, so the pool never answers 500 to it.  The
    queue grows by one request in the first case and is unchanged in
    the second. *)
Theorem worker_forwards_pool_status
    (hostname : string) (r : FormRequest) (c : Relay.AppContext Chan) :
  (length (buf (Relay.backend c)) < capacity (Relay.backend c) →
     status (worker (poolPostForm hostname) newWriter r c).1 = 200%Z
     ∧ length (buf (Relay.backend
                      (worker (poolPostForm hostname) newWriter r c).2))
       = length (buf (Relay.backend c)) + 1)
  ∧ (capacity (Relay.backend c) ≤ length (buf (Relay.backend c)) →
     0 < capacity (Relay.backend c) ∨ ready (Relay.backend c) = 0 →
     status (worker (poolPostForm hostname) newWriter r c).1 = 503%Z
     ∧ Relay.backend (worker (poolPostForm hostname) newWriter r c).2
       = Relay.backend c).
Proof.
  unfold worker, poolPostForm, ServeHTTP. simpl.
  rewrite getProcessImageReq_with_id.
  2: { rewrite worker_values_id.
       by destruct (FormValue r "bucketName"). }
  cbv zeta. split.
  - intros Hocc. rewrite trySend_room by done. simpl. split; [done|].
    rewrite length_app. simpl. lia.
  - intros Hocc Hbuffered. by rewrite trySend_full.
Qed.

Lemma worker_forwards_pool_status_witness :
  status (worker (poolPostForm "host-1") newWriter
            (taskRequest "photos" "eiffel.jpg")
            (Relay.mkContext (makeChan 1) [] [])).1 = 200%Z
  ∧ status (worker (poolPostForm "host-1") newWriter
              (taskRequest "photos" "eiffel.jpg")
              (Relay.mkContext (parked 2 fullChan) [] [])).1 = 503%Z.
Proof.
  split.
  - destruct (worker_forwards_pool_status "host-1"
                (taskRequest "photos" "eiffel.jpg")
                (Relay.mkContext (makeChan 1) [] [])) as [Hroom _].
    apply Hroom. simpl. lia.
  - destruct (worker_forwards_pool_status "host-1"
                (taskRequest "photos" "eiffel.jpg")
                (Relay.mkContext (parked 2 fullChan) [] [])) as [_ Hfull].
    apply Hfull; simpl; lia.
Defined.

End RelayTaskFacts.
